(** * headlines: a Markov-chain phrase generator (generator.go)

    A shallow embedding of the Go package [headlines] and the proofs of its
    specification.  The development follows the source file top-down:

    - the Go runtime notions the package relies on (outcomes of a call,
      fixed-width integers, byte strings and their order, [sort.Search],
      [strings.Split], [strings.Join], [strings.TrimSpace], slices);
    - [index]: the sorted token set with [Add], [Get] and [Find];
    - [processStream]: the line reader and tokenizer;
    - [Chain]: [NewChain], the three build passes, [Build] and [Generate].

    Conventions.  A Go [string] is a sequence of bytes: Rocq's [string]
    (a list of 8-bit [ascii]).  Go compares strings byte-wise, which is
    [String.compare].  A slice is a [list]; its length is a [nat].  An [int]
    is 64 bits wide and an [int32] 32 bits wide; both are integers of [Z]
    and the places where the program converts or may leave the range have
    the wrap-around written out ([int32], [wrap64]).  A call either returns,
    returns an [error], or panics: type [outcome]. *)

From Stdlib Require Import ZArith String Ascii List Lia Sorted.
From Equations Require Import Equations.
From stdpp Require Import gmap strings list sorting.

(** ** Outcomes of a Go call *)

(** The [error] values that occur: a failure of the underlying reader, and
    the error [Generate] makes with [fmt.Errorf], which carries the prefix
    length it prints. *)
Inductive error : Type :=
  | read_error (msg : string)
  | too_few_tokens (n : Z).

(** What a panic carries: the message of a run-time error, or the value
    given to [panic]: a string, or an [error]. *)
Inductive panic_value : Type :=
  | runtime_error (msg : string)
  | panic_string (msg : string)
  | panic_error (e : error).

Inductive outcome (A : Type) : Type :=
  | Ok (a : A)              (* normal return *)
  | Err (e : error)         (* a non-nil [error] is returned *)
  | Panic (v : panic_value). (* panic *)

Arguments Ok {A} a.
Arguments Err {A} e.
Arguments Panic {A} v.

Definition bind {A B : Type} (m : outcome A) (k : A -> outcome B) : outcome B :=
  match m with
  | Ok a => k a
  | Err e => Err e
  | Panic v => Panic v
  end.

Notation "'let!' x ':=' m 'in' k" := (bind m (fun x => k))
  (at level 10, x name, m at level 100, k at level 200).
Notation "'let!' ' pat ':=' m 'in' k" :=
  (bind m (fun x => match x with pat => k end))
  (at level 10, pat pattern, m at level 100, k at level 200).

(** ** Fixed-width integers *)

(** The conversion [int32(i)] of an [int]: the low 32 bits, signed. *)
Definition int32 (z : Z) : Z := ((z + 2 ^ 31) mod 2 ^ 32 - 2 ^ 31)%Z.

(** Arithmetic on [int] wraps around at 64 bits. *)
Definition wrap64 (z : Z) : Z := ((z + 2 ^ 63) mod 2 ^ 64 - 2 ^ 63)%Z.

(** [len(s)] as an [int]. *)
Definition len {A : Type} (l : list A) : Z := Z.of_nat (length l).

(** ** Byte-wise order of strings *)

Definition str_lt (a b : string) : Prop := String.ltb a b = true.

(** ** The panics *)

(** Of the run time, of [rand.Intn], and the two of [buildChain]. *)
Definition index_out_of_range : panic_value := runtime_error "index out of range".
Definition slice_out_of_range : panic_value := runtime_error "slice bounds out of range".
Definition invalid_Intn : panic_value := panic_string "invalid argument to Intn".
Definition cant_find_token : panic_value := panic_string "can't find token in Index".
Definition cant_find_prefix : panic_value :=
  panic_string "can't find starting prefix in Index".

(** ** Slices *)

(** [s[i]] for an [int] index. *)
Definition at_index {A : Type} (s : list A) (i : Z) : outcome A :=
  if (i <? 0)%Z then Panic index_out_of_range
  else match s !! Z.to_nat i with
       | Some x => Ok x
       | None => Panic index_out_of_range
       end.

(** [s[lo:hi]], and [s[lo:]] with [hi = len(s)].  The upper bound is checked
    against the length: the slices that are cut with an upper bound come
    from [strings.Split], which makes them with the capacity of their
    length. *)
Definition slice {A : Type} (s : list A) (lo hi : Z) : outcome (list A) :=
  if ((0 <=? lo) && (lo <=? hi) && (hi <=? len s))%Z
  then Ok (take (Z.to_nat (hi - lo)) (drop (Z.to_nat lo) s))
  else Panic slice_out_of_range.

(** [copy(dst, src)]: the contents of [dst] afterwards. *)
Definition copy {A : Type} (dst src : list A) : list A :=
  take (length dst) src ++ drop (length src) dst.

(** ** sort.Search and sort.SearchStrings *)

(** The loop of [sort.Search]: [for i < j { h := int(uint(i+j) >> 1); if
    !f(h) { i = h + 1 } else { j = h } }; return i].  The sum [i+j] is
    taken as an unsigned number, so the midpoint is exact. *)
Equations? Search_loop (f : nat -> bool) (i j : nat) : nat by wf (j - i) lt :=
  Search_loop f i j with decide (i < j) => {
    | left _ =>
        let h := (i + j) / 2 in
        if negb (f h) then Search_loop f (h + 1) j else Search_loop f i h
    | right _ => i }.
Proof.
  all: assert (i <= (i + j) `div` 2 < j)
    by (split; [apply Nat.div_le_lower_bound
               | apply Nat.Div0.div_lt_upper_bound]; lia); lia.
Qed.

Definition Search (n : nat) (f : nat -> bool) : nat := Search_loop f 0 n.

(** [a[i] >= x] inside [SearchStrings]; [i] is always below [len(a)]. *)
Definition SearchStrings (a : list string) (x : string) : nat :=
  Search (length a) (fun i => negb (String.ltb (default EmptyString (a !! i)) x)).

(** ** index: a set of tokens as a sorted slice *)

Record index : Type := mk_index { tokens : list string }.

Definition empty_index : index := mk_index [].

(** [Add] adds [token] to the index, if it does not already exist. *)
Definition Add (idx : index) (token : string) : index :=
  let i := SearchStrings (tokens idx) token in
  if decide (i = length (tokens idx)) then
    (* not in the index *)
    mk_index (tokens idx ++ [token])
  else if decide (default EmptyString (tokens idx !! i) ≠ token) then
    (* make room for the new token *)
    let t1 := tokens idx ++ [EmptyString] in
    (* move the right hand side up *)
    let t2 := take (i + 1) t1 ++ copy (drop (i + 1) t1) (drop i t1) in
    (* insert the new token into its place *)
    mk_index (<[i := token]> t2)
  else idx.

(** [Get] returns whatever token is at position [i]. *)
Definition Get (idx : index) (i : Z) : outcome string := at_index (tokens idx) i.

(** [Find] returns the position of [token], or -1 when it is not present. *)
Definition Find (idx : index) (token : string) : Z :=
  let i := SearchStrings (tokens idx) token in
  if bool_decide (i = length (tokens idx))
     || bool_decide (default EmptyString (tokens idx !! i) ≠ token)
  then int32 (-1)
  else int32 (Z.of_nat i).

(** [String] implements [fmt.Stringer]: [fmt.Sprintf("%v\n%v", out, t)] for
    every token, then a line feed. *)
Definition index_String (idx : index) : string :=
  fold_left (fun out t => out +:+ String "010"%char t) (tokens idx) EmptyString
  +:+ String "010"%char EmptyString.

(** A run of [Add] calls, in order. *)
Definition Adds (idx : index) (ts : list string) : index := fold_left Add ts idx.

(** ** package strings *)

(** [delim] is the delimiter used to separate tokens: the one byte [" "]. *)
Definition delim : ascii := " "%char.

Definition newline : ascii := "010"%char.

(** [strings.Join(elems, sep)] for a separator of one byte. *)
Fixpoint Join (elems : list string) (sep : ascii) : string :=
  match elems with
  | [] => EmptyString
  | [x] => x
  | x :: xs => x +:+ String sep (Join xs sep)
  end.

(** [strings.Split(s, sep)] for a separator of one byte: the pieces of [s]
    between the occurrences of [sep]; one piece more than occurrences, so
    the empty string splits into one empty piece. *)
Fixpoint Split (s : string) (sep : ascii) : list string :=
  match s with
  | EmptyString => [EmptyString]
  | String c s' =>
      if Ascii.eqb c sep then EmptyString :: Split s' sep
      else match Split s' sep with
           | t :: ts => String c t :: ts
           | [] => [String c EmptyString]
           end
  end.

(** White space as [unicode.IsSpace] has it, on the UTF-8 encoding.  One
    byte: tab, line feed, vertical tab, form feed, carriage return, space. *)
Definition asciiSpace (a : ascii) : bool :=
  let n := N_of_ascii a in
  ((9 <=? n) && (n <=? 13) || (n =? 32))%N.

(** Two bytes: U+0085 (C2 85) and U+00A0 (C2 A0). *)
Definition space2 (a b : ascii) : bool :=
  let x := N_of_ascii a in
  let y := N_of_ascii b in
  ((x =? 194) && ((y =? 133) || (y =? 160)))%N.

(** Three bytes: U+1680 (E1 9A 80), U+2000 to U+200A (E2 80 80 to E2 80 8A),
    U+2028, U+2029 and U+202F (E2 80 A8, A9, AF), U+205F (E2 81 9F) and
    U+3000 (E3 80 80). *)
Definition space3 (a b c : ascii) : bool :=
  let x := N_of_ascii a in
  let y := N_of_ascii b in
  let z := N_of_ascii c in
  ((x =? 225) && (y =? 154) && (z =? 128)
   || (x =? 226) && (y =? 128)
      && ((128 <=? z) && (z <=? 138) || (z =? 168) || (z =? 169) || (z =? 175))
   || (x =? 226) && (y =? 129) && (z =? 159)
   || (x =? 227) && (y =? 128) && (z =? 128))%N.

(** Dropping the white space a string begins with.  With [fwd = true] the
    bytes of a rune are met first to last ([strings.TrimLeftFunc]); with
    [fwd = false] the string is read from its end, so they are met last to
    first ([strings.TrimRightFunc] on the reversed string). *)
Fixpoint trim_spaces (fwd : bool) (s : string) : string :=
  match s with
  | EmptyString => EmptyString
  | String a s1 =>
      if asciiSpace a then trim_spaces fwd s1
      else match s1 with
           | EmptyString => s
           | String b s2 =>
               if (if fwd then space2 a b else space2 b a) then trim_spaces fwd s2
               else match s2 with
                    | EmptyString => s
                    | String c s3 =>
                        if (if fwd then space3 a b c else space3 c b a)
                        then trim_spaces fwd s3
                        else s
                    end
           end
  end.

Definition TrimLeft (s : string) : string := trim_spaces true s.
Definition TrimRight (s : string) : string :=
  String.rev (trim_spaces false (String.rev s)).

(** [strings.TrimSpace(s)]: leading and trailing white space removed. *)
Definition TrimSpace (s : string) : string := TrimRight (TrimLeft s).

(** ** Readers *)

(** What a reader delivers: its bytes, and how it ends: with [io.EOF]
    ([None]) or with another error. *)
Record Reader : Type := mk_Reader { content : string; failure : option string }.

(** A [bytes.Buffer] holding [b]: reading it ends with [io.EOF]. *)
Definition Buffer (b : string) : Reader := mk_Reader b None.

(** [bufio.Reader.ReadBytes(delim)] on the bytes not yet consumed: the line
    up to and including the first [d], and the bytes left ([Some]); when the
    input ends before a [d] is met, what was read and [None]: the reader's
    end (its error, or [io.EOF]) is returned with the data. *)
Fixpoint ReadBytes (s : string) (d : ascii) : string * option string :=
  match s with
  | EmptyString => (EmptyString, None)
  | String c s' =>
      if Ascii.eqb c d then (String c EmptyString, Some s')
      else let (line, rest) := ReadBytes s' d in (String c line, rest)
  end.

(** ** processStream *)

(** A value together with the fact that it is the value of [x]. *)
Definition inspect {A : Type} (x : A) : {y : A | x = y} := exist _ x eq_refl.

(** [processStream] consumes from a reader, reading the input line by
    line.  Each line is tokenized by splitting on [delim], and each slice of
    tokens is passed to [processTokens], which acts on the state [St] the
    closure has captured.  [io.EOF] is not returned as an error. *)
Equations? processStream_loop {St : Type} (rest : string) (fail : option string)
    (processTokens : St -> list string -> outcome St) (st : St) : outcome St
    by wf (String.length rest) lt :=
  processStream_loop rest fail processTokens st with inspect (ReadBytes rest newline) => {
    | exist _ (line, Some rest') E =>
        (* err == nil *)
        let! st' := processTokens st (Split (TrimSpace line) delim) in
        processStream_loop rest' fail processTokens st'
    | exist _ (line, None) E with fail => {
        | Some e => Err (read_error e)
        | None =>
            (* err == io.EOF: the last line is processed, then break *)
            processTokens st (Split (TrimSpace line) delim) } }.
Proof.
  (* the bytes left after a line are fewer *)
  clear - E. revert line rest' E.
  induction rest as [|c s IH]; intros line rest'; simpl; [discriminate|].
  destruct (Ascii.eqb c newline).
  - intros [= _ <-]. lia.
  - destruct (ReadBytes s newline) as [l r] eqn:E. intros [= _ ->].
    specialize (IH _ _ eq_refl). lia.
Qed.

Definition processStream {St : Type} (r : Reader)
    (processTokens : St -> list string -> outcome St) (st : St) : outcome St :=
  processStream_loop (content r) (failure r) processTokens st.

(** ** Loops and random numbers *)

(** [for ; i < bound; i++ { body }] with [n] iterations left to run. *)
Fixpoint for_upto {St : Type} (n : nat) (i : Z) (body : Z -> St -> outcome St)
    (st : St) : outcome St :=
  match n with
  | O => Ok st
  | S n' => let! st' := body i st in for_upto n' (i + 1)%Z body st'
  end.

(** The process-wide random source of [math/rand], as the sequence of the
    raw numbers it will draw. *)
Definition rand : Type := nat -> nat.

(** [rand.Intn(n)]: a number of [[0, n)], and the source after the draw;
    it panics if [n <= 0]. *)
Definition Intn (n : Z) (d : rand) : outcome (Z * rand) :=
  if (n <=? 0)%Z then Panic invalid_Intn
  else Ok ((Z.of_nat (d O) mod n)%Z, fun k => d (S k)).

(** ** Chain *)

(** A [Chain] represents a Markov chain: [chain] maps every prefix to the
    indexes (into [tokensIdx]) of the tokens that follow it, repeated as
    often as they follow it; [sp] holds the indexes (into
    [startingPrefixIdx]) of the prefixes that begin the phrases. *)
Record Chain : Type := mk_Chain {
  chain : gmap string (list Z);
  tokensIdx : index;
  sp : list Z;
  startingPrefixIdx : index;
  prefixLength : Z }.

Definition set_chain (c : Chain) (m : gmap string (list Z)) : Chain :=
  mk_Chain m (tokensIdx c) (sp c) (startingPrefixIdx c) (prefixLength c).
Definition set_tokensIdx (c : Chain) (idx : index) : Chain :=
  mk_Chain (chain c) idx (sp c) (startingPrefixIdx c) (prefixLength c).
Definition set_sp (c : Chain) (l : list Z) : Chain :=
  mk_Chain (chain c) (tokensIdx c) l (startingPrefixIdx c) (prefixLength c).
Definition set_startingPrefixIdx (c : Chain) (idx : index) : Chain :=
  mk_Chain (chain c) (tokensIdx c) (sp c) idx (prefixLength c).

(** [NewChain] creates a new [Chain] with prefix length [l]. *)
Definition NewChain (l : Z) : Chain := mk_Chain ∅ empty_index [] empty_index l.

(** The closure of [buildTokenIndex]: every token is added to [tokensIdx]. *)
Definition processTokens (c : Chain) (tokens : list string) : outcome Chain :=
  Ok (fold_left (fun c token => set_tokensIdx c (Add (tokensIdx c) token)) tokens c).

Definition buildTokenIndex (c : Chain) (r : Reader) : outcome Chain :=
  processStream r processTokens c.

(** The closure of [buildPrefixIndex]: the first [prefixLength] tokens are
    joined and added to [startingPrefixIdx]. *)
Definition processStartingPrefixes (c : Chain) (tokens : list string) : outcome Chain :=
  if (len tokens >=? prefixLength c)%Z then
    let! first := slice tokens 0 (prefixLength c) in
    let prefix := Join first delim in
    Ok (set_startingPrefixIdx c (Add (startingPrefixIdx c) prefix))
  else Ok c.

Definition buildPrefixIndex (c : Chain) (r : Reader) : outcome Chain :=
  processStream r processStartingPrefixes c.

(** The body of the loop of [buildChain]'s closure, at window [i]. *)
Definition processPhrase_body (tokens : list string) (i : Z) (c : Chain) : outcome Chain :=
  let! window := slice tokens i (wrap64 (i + prefixLength c)) in
  let prefix := Join window delim in
  let! suffix := at_index tokens (wrap64 (i + prefixLength c)) in
  (* add prefix and suffix mapping *)
  let suffixI := Find (tokensIdx c) suffix in
  if (suffixI =? -1)%Z then Panic cant_find_token
  else
    let c := set_chain c (<[prefix := (chain c !!! prefix) ++ [suffixI]]> (chain c)) in
    (* is this the start of a line? *)
    if (i =? 0)%Z then
      let startingPrefixI := Find (startingPrefixIdx c) prefix in
      if (startingPrefixI =? -1)%Z then Panic cant_find_prefix
      else Ok (set_sp c (sp c ++ [startingPrefixI]))
    else Ok c.

(** The closure of [buildChain]:
    [for i := 0; i < len(tokens)-c.prefixLength; i++]. *)
Definition processPhrase (c : Chain) (tokens : list string) : outcome Chain :=
  for_upto (Z.to_nat (wrap64 (len tokens - prefixLength c))) 0
           (processPhrase_body tokens) c.

Definition buildChain (c : Chain) (r : Reader) : outcome Chain :=
  processStream r processPhrase c.

(** The three passes of [Build], over the reader and the two buffers. *)
Definition Build_passes (c : Chain) (tr b1 b2 : Reader) : outcome Chain :=
  let! c := buildTokenIndex c tr in
  let! c := buildPrefixIndex c b1 in
  buildChain c b2.

(** [Build]: all that is read from [tr] is written to [b1] and [b2], and the
    first pass reads [r] to its end. *)
Definition Build (c : Chain) (r : Reader) : outcome Chain :=
  Build_passes c r (Buffer (content r)) (Buffer (content r)).

(** The loop of [Generate]: [for len(sentence) < l]. *)
Equations? Generate_loop (c : Chain) (l : Z) (sentence : list string) (d : rand)
    : outcome (list string) by wf (Z.to_nat (l - len sentence)) lt :=
  Generate_loop c l sentence d with decide (len sentence < l)%Z => {
    | right _ => Ok sentence
    | left _ =>
        let! prefix :=
          slice sentence (wrap64 (len sentence - prefixLength c)) (len sentence) in
        (* all suffix indexes associated with prefix *)
        let suffixesI := chain c !!! Join prefix delim in
        if decide (len suffixesI = 0%Z) then Ok sentence (* break *)
        else
          let! '(i, d') := Intn (len suffixesI) d in
          let! suffixI := at_index suffixesI i in
          let! suffix := Get (tokensIdx c) suffixI in
          Generate_loop c l (sentence ++ [suffix]) d' }.
Proof.
  unfold len in *. rewrite length_app. simpl. lia.
Qed.

(** [Generate] uses the Markov chain to generate a phrase with a maximum
    length of [l]. *)
Definition Generate (c : Chain) (l : Z) (d : rand) : outcome string :=
  let! '(i, d) := Intn (len (sp c)) d in
  let! spi := at_index (sp c) i in
  let! prefix := Get (startingPrefixIdx c) spi in
  let sentence := Split prefix delim in
  if (len sentence <? prefixLength c)%Z then Err (too_few_tokens (prefixLength c))
  else
    let! sentence := Generate_loop c l sentence d in
    Ok (Join sentence delim).

(** [MustGenerate] panics if [Generate] returns an error. *)
Definition MustGenerate (c : Chain) (length : Z) (d : rand) : outcome string :=
  match Generate c length d with
  | Ok s => Ok s
  | Err err => Panic (panic_error err)
  | Panic v => Panic v
  end.

(** The corpus of Test_BuildChain. *)
Definition test_data : string := "the quick brown fox, jumps over the lazy dog.
foo bar brown fox, hello.
foo bar zoo.".

(** * Notions of the specification *)

(** Strictly sorted: ascending in the byte-wise order, hence without
    duplicates. *)
Definition sorted (l : list string) : Prop := StronglySorted str_lt l.

(** [contains s c]: the byte [c] occurs in [s]. *)
Fixpoint contains (s : string) (c : ascii) : bool :=
  match s with
  | EmptyString => false
  | String a s' => Ascii.eqb a c || contains s' c
  end.

(** The number of occurrences of the byte [c] in [s]. *)
Fixpoint count_byte (s : string) (c : ascii) : nat :=
  match s with
  | EmptyString => 0
  | String a s' => (if Ascii.eqb a c then 1 else 0) + count_byte s' c
  end.

(** The lines of an input: what stands between its line feeds; the last
    line is what follows the last line feed, and may be empty. *)
Definition lines (data : string) : list string := Split data newline.

(** The tokens of a line: white space trimmed at both ends, then split on
    every single [delim]. *)
Definition tokenize (line : string) : list string := Split (TrimSpace line) delim.

(** The code points of white space, as the tables of package unicode list
    them: U+0009 to U+000D, U+0020, U+0085, U+00A0, U+1680, U+2000 to
    U+200A, U+2028, U+2029, U+202F, U+205F and U+3000. *)
Definition White_Space : list N :=
  [9; 10; 11; 12; 13; 32; 133; 160; 5760;
   8192; 8193; 8194; 8195; 8196; 8197; 8198; 8199; 8200; 8201; 8202;
   8232; 8233; 8239; 8287; 12288]%N.

(** The UTF-8 encoding of a code point below U+10000: one byte below U+0080,
    two bytes below U+0800, three bytes otherwise. *)
Definition utf8 (cp : N) : string :=
  if (cp <? 128)%N then String (ascii_of_N cp) EmptyString
  else if (cp <? 2048)%N then
    String (ascii_of_N (192 + cp / 64))
      (String (ascii_of_N (128 + cp mod 64)) EmptyString)
  else
    String (ascii_of_N (224 + cp / 4096))
      (String (ascii_of_N (128 + (cp / 64) mod 64))
         (String (ascii_of_N (128 + cp mod 64)) EmptyString)).

(** [space_rune w]: the bytes [w] are one rune of white space. *)
Definition space_rune (w : string) : bool :=
  existsb (String.eqb w) (map utf8 White_Space).

(** A string of white space only: runes of white space, one after the
    other. *)
Inductive white_space : string -> Prop :=
  | white_space_empty : white_space EmptyString
  | white_space_rune (w s : string) :
      space_rune w = true -> white_space s -> white_space (w +:+ s).

(** The first rune, or the last rune, of [s] is white space. *)
Definition begins_with_space (s : string) : Prop :=
  exists w rest, space_rune w = true /\ s = w +:+ rest.

Definition ends_with_space (s : string) : Prop :=
  exists rest w, space_rune w = true /\ s = rest +:+ w.

(** Calling [f] on each element of [l] in turn, as long as it returns. *)
Fixpoint foldM {St A : Type} (f : St -> A -> outcome St) (l : list A) (st : St)
    : outcome St :=
  match l with
  | [] => Ok st
  | x :: l' => let! st' := f st x in foldM f l' st'
  end.

(** The corpus a reader delivers: the tokens of each of its lines. *)
Definition corpus_lines (data : string) : list (list string) :=
  map tokenize (lines data).

(** All the tokens of the corpus, in order. *)
Definition corpus_tokens (data : string) : list string :=
  concat (corpus_lines data).

(** The starting prefixes of the lines that have at least [n] tokens. *)
Definition starting_prefixes (n : nat) (ls : list (list string)) : list string :=
  map (fun ts => Join (take n ts) delim)
      (filter (fun ts => n <= length ts) ls).

(** The sliding windows of a line: every run of [n] consecutive tokens that
    is followed by a token, joined, with the token that follows it. *)
Fixpoint windows (n : nat) (ts : list string) : list (string * string) :=
  match ts with
  | [] => []
  | _ :: rest =>
      match ts !! n with
      | Some suffix => (Join (take n ts) delim, suffix) :: windows n rest
      | None => []
      end
  end.

Definition corpus_windows (n : nat) (data : string) : list (string * string) :=
  concat (map (windows n) (corpus_lines data)).

(** The starting prefixes of the lines that have more than [n] tokens. *)
Definition phrase_starts (n : nat) (ls : list (list string)) : list string :=
  map (fun ts => Join (take n ts) delim)
      (filter (fun ts => n < length ts) ls).

(** Recording one window in the chain map: the position of the suffix is
    appended to the entry of the prefix. *)
Definition record (idx : index) (m : gmap string (list Z)) (w : string * string)
    : gmap string (list Z) :=
  <[w.1 := (m !!! w.1) ++ [Find idx w.2]]> m.

(** What the third pass does with one line when its lookups succeed. *)
Definition record_phrase (n : nat) (c : Chain) (ts : list string) : Chain :=
  mk_Chain (fold_left (record (tokensIdx c)) (windows n ts) (chain c))
           (tokensIdx c)
           (sp c ++ if decide (n < length ts)
                    then [Find (startingPrefixIdx c) (Join (take n ts) delim)]
                    else [])
           (startingPrefixIdx c)
           (prefixLength c).

(** What [Build] makes of a chain [c] and a corpus [ls], in closed form:
    the tokens and the starting prefixes are added to the two indexes, then
    every window is recorded with the position of its suffix in the new
    token index, and every line that has a window with the position of its
    starting prefix in the new prefix index. *)
Definition Build_result (n : nat) (c : Chain) (ls : list (list string)) : Chain :=
  let idx := Adds (tokensIdx c) (concat ls) in
  let sidx := Adds (startingPrefixIdx c) (starting_prefixes n ls) in
  mk_Chain (fold_left (record idx) (concat (map (windows n) ls)) (chain c))
           idx
           (sp c ++ map (Find sidx) (phrase_starts n ls))
           sidx
           (prefixLength c).

(** The positions of the corpus fit the [int32] they are stored in. *)
Definition fits_int32 (c : Chain) (data : string) : Prop :=
  (len (tokens (tokensIdx c)) + len (corpus_tokens data) <= 2 ^ 31)%Z
  /\ (len (tokens (startingPrefixIdx c)) + len (corpus_lines data) <= 2 ^ 31)%Z.

(** [extends c c']: [c'] holds all that [c] holds: the same prefix length,
    every token and starting prefix of [c], and the lists of [c] with more
    positions appended. *)
Definition extends (c c' : Chain) : Prop :=
  prefixLength c' = prefixLength c
  /\ (forall t, t ∈ tokens (tokensIdx c) -> t ∈ tokens (tokensIdx c'))
  /\ (forall s, s ∈ tokens (startingPrefixIdx c) -> s ∈ tokens (startingPrefixIdx c'))
  /\ (exists k, sp c' = sp c ++ k)
  /\ (forall p, exists k, chain c' !!! p = (chain c !!! p) ++ k).

(** A line as the tokenizer delivers it: at least one token, and no token
    contains the delimiter. *)
Definition tokenized (ts : list string) : Prop :=
  ts <> [] /\ Forall (fun t => contains t delim = false) ts.

(** The strings of a chain are well formed for the prefix length [n]: every
    starting prefix splits into [n] tokens, and no token contains the
    delimiter. *)
Definition prefixes_ok (n : nat) (c : Chain) : Prop :=
  prefixLength c = Z.of_nat n
  /\ (forall s, s ∈ tokens (startingPrefixIdx c) -> length (Split s delim) = n)
  /\ (forall t, t ∈ tokens (tokensIdx c) -> contains t delim = false).

(** Every stored position is a position of the index it refers to. *)
Definition positions_ok (c : Chain) : Prop :=
  (forall x, x ∈ sp c -> (0 <= x < len (tokens (startingPrefixIdx c)))%Z)
  /\ (forall p x, x ∈ chain c !!! p -> (0 <= x < len (tokens (tokensIdx c)))%Z).

(** The chains a program can have: a new chain, and what a returning
    [Build] makes of a chain it can have. *)
Inductive built (pl : Z) : Chain -> Prop :=
  | built_NewChain : built pl (NewChain pl)
  | built_Build (c c' : Chain) (r : Reader) :
      built pl c -> Build c r = Ok c' -> built pl c'.

(** Every position of the chain map is the position of a token that follows
    the prefix in one of the windows [W]. *)
Definition chain_sound (W : list (string * string)) (c : Chain) : Prop :=
  forall p x, x ∈ chain c !!! p ->
    exists s, Get (tokensIdx c) x = Ok s /\ (p, s) ∈ W.

(** The number of tokens of a phrase. *)
Definition token_count (phrase : string) : Z := len (Split phrase delim).

(** * Properties *)

(** ** The order of strings *)

Lemma ascii_compare_refl (a : ascii) : Ascii.compare a a = Eq.
Proof. unfold Ascii.compare. apply N.compare_refl. Qed.

Lemma ascii_compare_lt_trans (a b c : ascii) :
  Ascii.compare a b = Lt -> Ascii.compare b c = Lt -> Ascii.compare a c = Lt.
Proof.
  unfold Ascii.compare. rewrite !N.compare_lt_iff. apply N.lt_trans.
Qed.

Lemma string_compare_refl (s : string) : String.compare s s = Eq.
Proof.
  induction s as [|a s IH]; simpl; [reflexivity|].
  now rewrite ascii_compare_refl.
Qed.

Lemma string_compare_lt_trans (s t u : string) :
  String.compare s t = Lt -> String.compare t u = Lt -> String.compare s u = Lt.
Proof.
  revert t u. induction s as [|a s IH]; intros [|b t] [|c u]; simpl;
    try discriminate; try reflexivity.
  destruct (Ascii.compare a b) eqn:Eab; try discriminate;
    destruct (Ascii.compare b c) eqn:Ebc; try discriminate; intros H1 H2.
  - apply Ascii.compare_eq_iff in Eab, Ebc. subst.
    rewrite ascii_compare_refl. eauto.
  - apply Ascii.compare_eq_iff in Eab. subst. now rewrite Ebc.
  - apply Ascii.compare_eq_iff in Ebc. subst. now rewrite Eab.
  - now rewrite (ascii_compare_lt_trans _ _ _ Eab Ebc).
Qed.

Lemma str_lt_irrefl (s : string) : ~ str_lt s s.
Proof. unfold str_lt, String.ltb. now rewrite string_compare_refl. Qed.

Lemma str_lt_trans (s t u : string) : str_lt s t -> str_lt t u -> str_lt s u.
Proof.
  unfold str_lt, String.ltb.
  destruct (String.compare s t) eqn:E1; try discriminate.
  destruct (String.compare t u) eqn:E2; try discriminate.
  now rewrite (string_compare_lt_trans _ _ _ E1 E2).
Qed.

Lemma str_lt_total (s t : string) : ~ str_lt s t -> s <> t -> str_lt t s.
Proof.
  unfold str_lt, String.ltb. rewrite (String.compare_antisym t s).
  destruct (String.compare s t) eqn:E; simpl; try tauto.
  apply String.compare_eq_iff in E. tauto.
Qed.

Lemma str_lt_asym (s t : string) : str_lt s t -> ~ str_lt t s.
Proof. intros H1 H2. exact (str_lt_irrefl _ (str_lt_trans _ _ _ H1 H2)). Qed.

(** ** sort.Search finds the least index where [f] holds *)

Lemma Search_loop_spec (f : nat -> bool) (n i j : nat) :
  i <= j <= n ->
  (forall k k', k <= k' < n -> f k = true -> f k' = true) ->
  (forall k, k < i -> f k = false) ->
  (forall k, j <= k < n -> f k = true) ->
  i <= Search_loop f i j <= j
  /\ (forall k, k < Search_loop f i j -> f k = false)
  /\ (forall k, Search_loop f i j <= k < n -> f k = true).
Proof.
  intros Hij Hmono. funelim (Search_loop f i j); intros Hlo Hhi.
  - assert (Hh : i <= (i + j) `div` 2 < j)
      by (split; [apply Nat.div_le_lower_bound
                 | apply Nat.Div0.div_lt_upper_bound]; lia).
    destruct (f ((i + j) `div` 2)) eqn:Ef; cbn [negb].
    + destruct (H0 n ltac:(lia) Hmono Hlo) as (? & ? & ?).
      { intros k Hk. apply (Hmono ((i + j) `div` 2)); [lia | assumption]. }
      repeat split; auto; lia.
    + destruct (H n ltac:(lia) Hmono) as (? & ? & ?).
      { intros k Hk. destruct (f k) eqn:Efk; [|reflexivity].
        rewrite (Hmono k ((i + j) `div` 2)) in Ef; [discriminate | lia | assumption]. }
      { intros k Hk. apply Hhi. lia. }
      repeat split; auto; lia.
  - assert (i = j) by lia. subst. repeat split; auto; lia.
Qed.

Lemma Search_loop_range (f : nat -> bool) (i j : nat) :
  i <= j -> i <= Search_loop f i j <= j.
Proof.
  funelim (Search_loop f i j); intros Hij; [|lia].
  assert (Hh : i <= (i + j) `div` 2 < j)
    by (split; [apply Nat.div_le_lower_bound
               | apply Nat.Div0.div_lt_upper_bound]; lia).
  destruct (negb (f ((i + j) `div` 2))).
  - assert (Hle : (i + j) `div` 2 + 1 <= j) by lia.
    specialize (H Hle). lia.
  - assert (Hle : i <= (i + j) `div` 2) by lia.
    specialize (H0 Hle). lia.
Qed.

(** ** The unit tests of the index *)

(** The tables of Test_Index_Add, Test_Index_Get and Test_Index_Find. *)
Example Test_Index_Add :
  map (fun n => tokens (Adds empty_index (take n ["foo"; "foo"; "hello"; "abc"; "boo"; "boo"])))
      [1; 2; 3; 4; 5; 6]
  = [ ["foo"]; ["foo"]; ["foo"; "hello"]; ["abc"; "foo"; "hello"];
      ["abc"; "boo"; "foo"; "hello"]; ["abc"; "boo"; "foo"; "hello"] ].
Proof. vm_compute. reflexivity. Qed.

Example Test_Index_Get :
  map (Get (mk_index ["abc"; "boo"; "foo"; "hello"])) [0; 0; 2]%Z
  = [Ok "abc"; Ok "abc"; Ok "foo"].
Proof. vm_compute. reflexivity. Qed.

Example Test_Index_Find :
  map (Find (mk_index ["abc"; "boo"; "foo"; "hello"]))
      ["foo"; "hello"; "HELLO"; "fo"; "abc"]
  = [2; 3; -1; -1; 0]%Z.
Proof. vm_compute. reflexivity. Qed.

(** ** Sorted slices and SearchStrings *)

Lemma sorted_lookup_lt (l : list string) (i j : nat) (a b : string) :
  sorted l -> l !! i = Some a -> l !! j = Some b -> i < j -> str_lt a b.
Proof.
  intros Hs Hi Hj Hlt. rewrite <- (take_drop j l) in Hs.
  eapply StronglySorted_app_1_elem_of; [exact Hs | |].
  - apply list_elem_of_lookup. exists i. now rewrite lookup_take_lt.
  - apply list_elem_of_lookup. exists 0. rewrite lookup_drop.
    now rewrite Nat.add_0_r.
Qed.

Lemma sorted_lookup_inj (l : list string) (i j : nat) (a : string) :
  sorted l -> l !! i = Some a -> l !! j = Some a -> i = j.
Proof.
  intros Hs Hi Hj. destruct (Nat.lt_trichotomy i j) as [H|[H|H]]; [|assumption|];
    exfalso; apply (str_lt_irrefl a).
  - exact (sorted_lookup_lt _ _ _ _ _ Hs Hi Hj H).
  - exact (sorted_lookup_lt _ _ _ _ _ Hs Hj Hi H).
Qed.

Lemma SearchStrings_spec (a : list string) (x : string) :
  sorted a ->
  SearchStrings a x <= length a
  /\ (forall k y, a !! k = Some y -> k < SearchStrings a x -> str_lt y x)
  /\ (forall k y, a !! k = Some y -> SearchStrings a x <= k -> ~ str_lt y x).
Proof.
  intros Hs. unfold SearchStrings, Search.
  set (f := fun i => negb (String.ltb (default EmptyString (a !! i)) x)).
  destruct (Search_loop_spec f (length a) 0 (length a)) as (Hr & Hlo & Hhi);
    try lia.
  - intros k k' Hk Hf. unfold f in *.
    destruct (lookup_lt_is_Some_2 a k ltac:(lia)) as [y Hy].
    destruct (lookup_lt_is_Some_2 a k' ltac:(lia)) as [y' Hy'].
    rewrite Hy in Hf. rewrite Hy'. simpl in *.
    destruct (decide (k = k')) as [->|Hne]; [congruence|].
    assert (Hlt : str_lt y y') by (eapply sorted_lookup_lt; eauto; lia).
    destruct (String.ltb y' x) eqn:E; [|reflexivity].
    rewrite (str_lt_trans _ _ _ Hlt E) in Hf. discriminate.
  - split; [lia|]. split.
    + intros k y Hy Hk. specialize (Hlo k Hk). unfold f in Hlo.
      rewrite Hy in Hlo. simpl in Hlo. unfold str_lt.
      now destruct (String.ltb y x).
    + intros k y Hy Hk. apply lookup_lt_Some in Hy as Hlen.
      specialize (Hhi k ltac:(lia)). unfold f in Hhi.
      rewrite Hy in Hhi. simpl in Hhi. unfold str_lt.
      now destruct (String.ltb y x).
Qed.

(** On a sorted slice the search returns the position of a token that is
    present. *)
Lemma SearchStrings_present (a : list string) (x : string) (p : nat) :
  sorted a -> a !! p = Some x -> SearchStrings a x = p.
Proof.
  intros Hs Hp. destruct (SearchStrings_spec a x Hs) as (Hr & Hlo & Hhi).
  destruct (Nat.lt_trichotomy (SearchStrings a x) p) as [H|[H|H]]; [|assumption|].
  - destruct (lookup_lt_is_Some_2 a (SearchStrings a x)) as [y Hy].
    { apply lookup_lt_Some in Hp. lia. }
    exfalso. apply (Hhi _ _ Hy); [lia|]. eapply sorted_lookup_lt; eauto.
  - exfalso. exact (str_lt_irrefl _ (Hlo _ _ Hp H)).
Qed.

(** ** index.Add *)

(** The append, copy and assignment of [Add] insert the token at [i]. *)
Lemma make_room_insert (a : list string) (i : nat) (x : string) :
  i < length a ->
  <[i := x]> (take (i + 1) (a ++ [EmptyString])
              ++ copy (drop (i + 1) (a ++ [EmptyString])) (drop i (a ++ [EmptyString])))
  = take i a ++ x :: drop i a.
Proof.
  intros Hi. unfold copy.
  rewrite !drop_app_le by lia. rewrite take_app_le by lia.
  rewrite !length_app, !length_drop. simpl.
  replace (length a - (i + 1) + 1) with (length (drop i a))
    by (rewrite length_drop; lia).
  rewrite take_app_length.
  rewrite (drop_ge (drop (i + 1) a ++ [EmptyString]))
    by (rewrite length_app, !length_drop; simpl; lia).
  rewrite app_nil_r.
  rewrite insert_app_l by (rewrite length_take; lia).
  rewrite insert_take_drop by (rewrite length_take; lia).
  rewrite take_take, Nat.min_l by lia.
  rewrite (drop_ge (take (i + 1) a)) by (rewrite length_take; lia).
  now rewrite <- app_assoc.
Qed.

(** What [Add] does to the tokens of a sorted index. *)
Lemma Add_tokens (idx : index) (x : string) :
  sorted (tokens idx) ->
  tokens (Add idx x) =
    if decide (x ∈ tokens idx) then tokens idx
    else take (SearchStrings (tokens idx) x) (tokens idx)
         ++ x :: drop (SearchStrings (tokens idx) x) (tokens idx).
Proof.
  intros Hs. unfold Add.
  destruct (SearchStrings_spec (tokens idx) x Hs) as (Hr & Hlo & Hhi).
  destruct (decide (x ∈ tokens idx)) as [Hin|Hnin].
  - apply list_elem_of_lookup in Hin as [p Hp].
    rewrite (SearchStrings_present _ _ _ Hs Hp).
    apply lookup_lt_Some in Hp as Hlt.
    destruct (decide (p = length (tokens idx))); [lia|].
    rewrite Hp. simpl. destruct (decide (x ≠ x)); [congruence|reflexivity].
  - destruct (decide (SearchStrings (tokens idx) x = length (tokens idx))) as [E|E].
    + simpl. rewrite E, firstn_all, drop_all. reflexivity.
    + destruct (lookup_lt_is_Some_2 (tokens idx) (SearchStrings (tokens idx) x))
        as [y Hy]; [lia|].
      rewrite Hy. simpl. destruct (decide (y ≠ x)) as [Hne|Heq].
      * simpl. apply make_room_insert. lia.
      * exfalso. apply Hnin. apply list_elem_of_lookup. eexists.
        destruct (decide (y = x)); [subst; eauto | tauto].
Qed.

Lemma sorted_take (a : list string) (n : nat) : sorted a -> sorted (take n a).
Proof.
  intros Hs. rewrite <- (take_drop n a) in Hs.
  exact (StronglySorted_app_1_l _ _ _ Hs).
Qed.

Lemma sorted_drop (a : list string) (n : nat) : sorted a -> sorted (drop n a).
Proof.
  intros Hs. rewrite <- (take_drop n a) in Hs.
  exact (StronglySorted_app_1_r _ _ _ Hs).
Qed.

Lemma sorted_NoDup (a : list string) : sorted a -> NoDup a.
Proof.
  induction 1 as [|x l Hs IH Hall]; constructor; [|assumption].
  intros Hin. rewrite Forall_forall in Hall.
  exact (str_lt_irrefl x (Hall x Hin)).
Qed.

Lemma Add_sorted (idx : index) (x : string) :
  sorted (tokens idx) -> sorted (tokens (Add idx x)).
Proof.
  intros Hs. rewrite Add_tokens by assumption.
  destruct (decide (x ∈ tokens idx)) as [Hin|Hnin]; [assumption|].
  destruct (SearchStrings_spec (tokens idx) x Hs) as (Hr & Hlo & Hhi).
  set (r := SearchStrings (tokens idx) x) in *.
  assert (Hgt : forall y, y ∈ drop r (tokens idx) -> str_lt x y).
  { intros y Hy. apply list_elem_of_lookup in Hy as [k Hk].
    rewrite lookup_drop in Hk. apply str_lt_total.
    - apply (Hhi _ _ Hk). lia.
    - intros ->. apply Hnin. apply list_elem_of_lookup. eauto. }
  assert (Hlt : forall y, y ∈ take r (tokens idx) -> str_lt y x).
  { intros y Hy. apply list_elem_of_lookup in Hy as [k Hk].
    apply lookup_take_Some in Hk as [Hk Hkr]. eauto. }
  apply StronglySorted_app_2.
  - intros x1 x2 H1 H2. apply elem_of_cons in H2 as [->|H2]; [auto|].
    eapply str_lt_trans; eauto.
  - now apply sorted_take.
  - constructor; [now apply sorted_drop|]. apply Forall_forall. auto.
Qed.

(** [Add] keeps every token and adds [x], whatever the index holds. *)
Lemma Add_elem_of (idx : index) (x y : string) :
  y ∈ tokens (Add idx x) <-> y = x \/ y ∈ tokens idx.
Proof.
  unfold Add. set (i := SearchStrings (tokens idx) x).
  assert (Hi : i <= length (tokens idx)).
  { pose proof (Search_loop_range
       (fun i => negb (String.ltb (default EmptyString (tokens idx !! i)) x))
       0 (length (tokens idx)) ltac:(lia)) as H.
    unfold i, SearchStrings, Search. lia. }
  destruct (decide (i = length (tokens idx))) as [E|E].
  - simpl. rewrite elem_of_app, list_elem_of_singleton. tauto.
  - destruct (lookup_lt_is_Some_2 (tokens idx) i) as [z Hz]; [lia|].
    rewrite Hz. simpl. destruct (decide (z ≠ x)) as [Hne|Heq].
    + simpl. rewrite make_room_insert by lia.
      assert (Hiff : y ∈ tokens idx <-> y ∈ take i (tokens idx) \/ y ∈ drop i (tokens idx))
        by (rewrite <- elem_of_app, take_drop; reflexivity).
      rewrite elem_of_app, elem_of_cons, Hiff. tauto.
    + split; [auto|]. intros [->|H]; [|assumption].
      apply list_elem_of_lookup. exists i.
      destruct (decide (z = x)); [subst; assumption | tauto].
Qed.

Lemma Add_length (idx : index) (x : string) :
  sorted (tokens idx) ->
  length (tokens idx) <= length (tokens (Add idx x)) <= S (length (tokens idx)).
Proof.
  intros Hs. rewrite Add_tokens by assumption.
  destruct (decide (x ∈ tokens idx)); [lia|].
  rewrite length_app. simpl. rewrite length_take, length_drop. lia.
Qed.

Lemma Adds_sorted (ts : list string) (idx : index) :
  sorted (tokens idx) -> sorted (tokens (Adds idx ts)).
Proof.
  revert idx. induction ts as [|t ts IH]; intros idx Hs; simpl; [assumption|].
  apply IH. now apply Add_sorted.
Qed.

Lemma Adds_elem_of (ts : list string) (idx : index) (y : string) :
  y ∈ tokens (Adds idx ts) <-> y ∈ ts \/ y ∈ tokens idx.
Proof.
  revert idx. induction ts as [|t ts IH]; intros idx.
  - simpl. rewrite elem_of_nil. tauto.
  - change (Adds idx (t :: ts)) with (Adds (Add idx t) ts).
    rewrite IH, Add_elem_of, elem_of_cons. tauto.
Qed.

Lemma Adds_length (ts : list string) (idx : index) :
  sorted (tokens idx) ->
  length (tokens idx) <= length (tokens (Adds idx ts)) <= length (tokens idx) + length ts.
Proof.
  revert idx. induction ts as [|t ts IH]; intros idx Hs; [simpl; lia|].
  change (Adds idx (t :: ts)) with (Adds (Add idx t) ts).
  pose proof (Add_length idx t Hs).
  specialize (IH (Add idx t) (Add_sorted _ _ Hs)). simpl. lia.
Qed.

Lemma Adds_app (idx : index) (ts us : list string) :
  Adds idx (ts ++ us) = Adds (Adds idx ts) us.
Proof. unfold Adds. apply fold_left_app. Qed.

(** ** index.Find *)

Lemma int32_small (z : Z) : (0 <= z < 2 ^ 31)%Z -> int32 z = z.
Proof.
  intros H. unfold int32. rewrite Z.mod_small; lia.
Qed.

Lemma int32_range (z : Z) : (- 2 ^ 31 <= int32 z < 2 ^ 31)%Z.
Proof.
  unfold int32. pose proof (Z.mod_pos_bound (z + 2 ^ 31) (2 ^ 32)). lia.
Qed.

Lemma Find_present (idx : index) (x : string) (p : nat) :
  sorted (tokens idx) -> tokens idx !! p = Some x -> Find idx x = int32 (Z.of_nat p).
Proof.
  intros Hs Hp. unfold Find. rewrite (SearchStrings_present _ _ _ Hs Hp).
  apply lookup_lt_Some in Hp as Hlt. rewrite Hp. simpl.
  rewrite bool_decide_eq_false_2 by lia.
  rewrite bool_decide_eq_false_2 by congruence. reflexivity.
Qed.

Lemma Find_absent (idx : index) (x : string) :
  x ∉ tokens idx -> Find idx x = (-1)%Z.
Proof.
  intros Hnin. unfold Find.
  destruct (bool_decide _) eqn:E1; [reflexivity|].
  destruct (bool_decide (_ ≠ _)) eqn:E2; [reflexivity|]. exfalso.
  apply bool_decide_eq_false in E1, E2.
  destruct (lookup_lt_is_Some_2 (tokens idx) (SearchStrings (tokens idx) x))
    as [y Hy].
  { pose proof (Search_loop_range
       (fun i => negb (String.ltb (default EmptyString (tokens idx !! i)) x))
       0 (length (tokens idx)) ltac:(lia)) as H.
    unfold SearchStrings, Search in *. lia. }
  rewrite Hy in E2. simpl in E2. apply Hnin. apply list_elem_of_lookup.
  exists (SearchStrings (tokens idx) x).
  destruct (decide (y = x)); [subst; assumption | tauto].
Qed.

(** C5 - Index sortedness and uniqueness.  For every finite sequence of
    [Add] calls that starts from the empty index, the resulting token
    sequence is strictly sorted and has no duplicates, and it holds exactly
    the tokens added.  [Find] returns the position of every token of the
    index (as the [int32] it is converted to, which is the position itself
    below 2^31), and -1 for every token that was never added. *)
Theorem index_Add_sorted_Find_correct (ts : list string) :
  sorted (tokens (Adds empty_index ts))
  /\ NoDup (tokens (Adds empty_index ts))
  /\ (forall t, t ∈ tokens (Adds empty_index ts) <-> t ∈ ts)
  /\ (forall t p, tokens (Adds empty_index ts) !! p = Some t ->
        Find (Adds empty_index ts) t = int32 (Z.of_nat p)
        /\ ((Z.of_nat p < 2 ^ 31)%Z -> Find (Adds empty_index ts) t = Z.of_nat p))
  /\ (forall t, t ∉ ts -> Find (Adds empty_index ts) t = (-1)%Z).
Proof.
  assert (H0 : sorted (tokens empty_index)) by constructor.
  pose proof (Adds_sorted ts _ H0) as Hs.
  assert (Hel : forall t, t ∈ tokens (Adds empty_index ts) <-> t ∈ ts).
  { intros t. rewrite Adds_elem_of. simpl.
    rewrite elem_of_nil. tauto. }
  split; [assumption|]. split; [now apply sorted_NoDup|].
  split; [assumption|]. split.
  - intros t p Hp. pose proof (Find_present _ _ _ Hs Hp) as Hf.
    split; [assumption|]. intros Hsmall. rewrite Hf. apply int32_small. lia.
  - intros t Ht. apply Find_absent. now rewrite Hel.
Qed.

Lemma index_Add_sorted_Find_correct_witness :
  tokens (Adds empty_index ["foo"; "hello"; "abc"; "foo"]) !! 1 = Some "foo"
  /\ (Z.of_nat 1 < 2 ^ 31)%Z
  /\ Find (Adds empty_index ["foo"; "hello"; "abc"; "foo"]) "foo" = Z.of_nat 1.
Proof.
  split; [reflexivity|]. split; [lia|].
  destruct (index_Add_sorted_Find_correct ["foo"; "hello"; "abc"; "foo"])
    as (_ & _ & _ & Hfind & _).
  apply (Hfind "foo" 1); [reflexivity | lia].
Defined.

(** C8 - Index round trip.  For every index whose token sequence is strictly
    sorted and every valid position [p], [Get] returns a token and [Find]
    of that token is [p] (as an [int32]; [p] itself below 2^31). *)
Theorem index_Find_Get_roundtrip (idx : index) (p : Z) :
  sorted (tokens idx) ->
  (0 <= p < len (tokens idx))%Z ->
  exists t, Get idx p = Ok t
            /\ Find idx t = int32 p
            /\ ((p < 2 ^ 31)%Z -> Find idx t = p).
Proof.
  intros Hs Hp. unfold Get, at_index, len in *.
  destruct (p <? 0)%Z eqn:E; [lia|].
  destruct (lookup_lt_is_Some_2 (tokens idx) (Z.to_nat p)) as [t Ht]; [lia|].
  rewrite Ht. exists t. split; [reflexivity|].
  pose proof (Find_present _ _ _ Hs Ht) as Hf. rewrite Z2Nat.id in Hf by lia.
  split; [assumption|]. intros Hsmall. rewrite Hf. apply int32_small. lia.
Qed.

Lemma index_Find_Get_roundtrip_witness :
  sorted ["abc"; "boo"; "foo"; "hello"]
  /\ (0 <= 2 < len ["abc"; "boo"; "foo"; "hello"])%Z
  /\ exists t, Get (mk_index ["abc"; "boo"; "foo"; "hello"]) 2 = Ok t
               /\ Find (mk_index ["abc"; "boo"; "foo"; "hello"]) t = int32 2
               /\ ((2 < 2 ^ 31)%Z -> Find (mk_index ["abc"; "boo"; "foo"; "hello"]) t = 2%Z).
Proof.
  assert (Hs : sorted ["abc"; "boo"; "foo"; "hello"])
    by (repeat constructor).
  assert (Hp : (0 <= 2 < len ["abc"; "boo"; "foo"; "hello"])%Z)
    by (unfold len; simpl; lia).
  split; [exact Hs|]. split; [exact Hp|].
  exact (index_Find_Get_roundtrip (mk_index ["abc"; "boo"; "foo"; "hello"]) 2 Hs Hp).
Defined.

(** ** strings.Split and strings.Join *)

Lemma Split_not_nil (s : string) (d : ascii) : Split s d <> [].
Proof.
  destruct s as [|c s]; simpl; [discriminate|].
  destruct (Ascii.eqb c d); [discriminate|].
  destruct (Split s d); discriminate.
Qed.

Lemma Split_cons (c : ascii) (s : string) (d : ascii) :
  Split (String c s) d =
    if Ascii.eqb c d then EmptyString :: Split s d
    else match Split s d with
         | t :: ts => String c t :: ts
         | [] => [String c EmptyString]
         end.
Proof. reflexivity. Qed.

(** No piece contains the separator. *)
Lemma Split_no_sep (s : string) (d : ascii) :
  Forall (fun t => contains t d = false) (Split s d).
Proof.
  induction s as [|c s IH]; simpl.
  - repeat constructor.
  - destruct (Ascii.eqb c d) eqn:E.
    + constructor; [reflexivity | assumption].
    + destruct (Split s d) as [|t ts]; [repeat constructor; simpl; now rewrite E|].
      inversion IH; subst. constructor; [|assumption]. simpl. now rewrite E.
Qed.

(** One piece more than there are separators. *)
Lemma Split_length (s : string) (d : ascii) :
  length (Split s d) = S (count_byte s d).
Proof.
  induction s as [|c s IH]; simpl; [reflexivity|].
  destruct (Ascii.eqb c d); simpl; [now rewrite IH|].
  destruct (Split s d) as [|t ts]; simpl in *; lia.
Qed.

Lemma Join_cons (x : string) (xs : list string) (d : ascii) :
  xs <> [] -> Join (x :: xs) d = x +:+ String d (Join xs d).
Proof. destruct xs; [congruence | reflexivity]. Qed.

(** Joining the pieces gives the string back. *)
Lemma Join_Split (s : string) (d : ascii) : Join (Split s d) d = s.
Proof.
  induction s as [|c s IH]; [reflexivity|]. rewrite Split_cons.
  destruct (Ascii.eqb_spec c d) as [->|Hne].
  - rewrite Join_cons by apply Split_not_nil. simpl. now rewrite IH.
  - pose proof (Split_not_nil s d). destruct (Split s d) as [|t ts]; [congruence|].
    destruct ts as [|u ts]; simpl in *; now rewrite <- IH.
Qed.

Lemma Split_no_sep_id (t : string) (d : ascii) :
  contains t d = false -> Split t d = [t].
Proof.
  induction t as [|c t IH]; simpl; [reflexivity|].
  destruct (Ascii.eqb c d); simpl; [discriminate|].
  intros H. now rewrite IH.
Qed.

Lemma Split_app_sep (t s : string) (d : ascii) :
  contains t d = false -> Split (t +:+ String d s) d = t :: Split s d.
Proof.
  induction t as [|c t IH]; simpl.
  - intros _. now rewrite Ascii.eqb_refl.
  - destruct (Ascii.eqb c d); simpl; [discriminate|].
    intros H. now rewrite IH.
Qed.

(** Splitting a join of tokens without separator gives the tokens back. *)
Lemma Split_Join (ts : list string) (d : ascii) :
  ts <> [] -> Forall (fun t => contains t d = false) ts -> Split (Join ts d) d = ts.
Proof.
  induction ts as [|t ts IH]; [congruence|]. intros _ Hall.
  inversion Hall as [|? ? Ht Hts]; subst.
  destruct ts as [|u ts].
  - simpl. now apply Split_no_sep_id.
  - rewrite Join_cons by discriminate. rewrite Split_app_sep by assumption.
    rewrite IH; [reflexivity | discriminate | assumption].
Qed.

(** ** strings.TrimSpace and the line feed that ends a line *)

Lemma rev_app_append (s t acc : string) :
  String.rev_app (s +:+ t) acc = String.rev_app t (String.rev_app s acc).
Proof. revert acc. induction s as [|c s IH]; intros acc; simpl; auto. Qed.

Lemma rev_snoc (s : string) (c : ascii) :
  String.rev (s +:+ String c EmptyString) = String c (String.rev s).
Proof. unfold String.rev. now rewrite rev_app_append. Qed.

Lemma append_assoc (s t u : string) : (s +:+ t) +:+ u = s +:+ (t +:+ u).
Proof.
  induction s as [|a s IH]; [reflexivity|].
  change (String a ((s +:+ t) +:+ u) = String a (s +:+ (t +:+ u))).
  now rewrite IH.
Qed.

Lemma rev_app_eq (s acc : string) :
  String.rev_app s acc = String.rev s +:+ acc.
Proof.
  unfold String.rev. revert acc. induction s as [|a s IH]; intros acc; simpl.
  - reflexivity.
  - rewrite (IH (String a acc)), (IH (String a EmptyString)), append_assoc.
    reflexivity.
Qed.

Lemma rev_append (s t : string) :
  String.rev (s +:+ t) = String.rev t +:+ String.rev s.
Proof.
  unfold String.rev at 1. rewrite rev_app_append. apply rev_app_eq.
Qed.

Lemma rev_involutive (s : string) : String.rev (String.rev s) = s.
Proof.
  induction s as [|a s IH]; [reflexivity|].
  change (String.rev (String a s)) with (String.rev_app s (String a EmptyString)).
  rewrite rev_app_eq, rev_append, IH. reflexivity.
Qed.

Lemma TrimRight_newline (s : string) :
  TrimRight (s +:+ String newline EmptyString) = TrimRight s.
Proof. unfold TrimRight. now rewrite rev_snoc. Qed.

Lemma space2_newline (a : ascii) : space2 a newline = false.
Proof. unfold space2. simpl. apply andb_false_r. Qed.

Lemma space3_newline (a b : ascii) : space3 a b newline = false.
Proof.
  unfold space3. simpl.
  now rewrite !andb_false_r.
Qed.

(** A line feed after [s] is left in place by [TrimLeft], unless [s] is
    white space only. *)
Lemma TrimLeft_newline (n : nat) (s : string) :
  String.length s <= n ->
  (TrimLeft s = EmptyString
   /\ TrimLeft (s +:+ String newline EmptyString) = EmptyString)
  \/ TrimLeft (s +:+ String newline EmptyString)
     = TrimLeft s +:+ String newline EmptyString.
Proof.
  unfold TrimLeft. revert s. induction n as [|n IH]; intros s Hlen.
  - destruct s; [|simpl in Hlen; lia]. left. split; reflexivity.
  - destruct s as [|a [|b [|c s3]]]; simpl in Hlen.
    + left. split; reflexivity.
    + simpl. destruct (asciiSpace a); [left; split; reflexivity|].
      rewrite space2_newline. right. reflexivity.
    + simpl. destruct (asciiSpace a).
      * apply (IH (String b EmptyString)). simpl. lia.
      * destruct (space2 a b); [left; split; reflexivity|].
        rewrite space3_newline. right. reflexivity.
    + simpl. destruct (asciiSpace a).
      * apply (IH (String b (String c s3))). simpl. lia.
      * destruct (space2 a b).
        -- apply (IH (String c s3)). simpl. lia.
        -- destruct (space3 a b c); [apply (IH s3); lia|]. right. reflexivity.
Qed.

(** The line feed that [ReadBytes] leaves at the end of a line is trimmed. *)
Lemma TrimSpace_newline (s : string) :
  TrimSpace (s +:+ String newline EmptyString) = TrimSpace s.
Proof.
  unfold TrimSpace.
  destruct (TrimLeft_newline (String.length s) s (le_n _)) as [[E1 E2]|E].
  - now rewrite E1, E2.
  - rewrite E. apply TrimRight_newline.
Qed.

(** ** strings.TrimSpace removes the white space at both ends *)

(** The runes of white space are the bytes that [TrimSpace] tests for. *)
Lemma space_rune_cases (w : string) :
  space_rune w = true ->
  (exists a, w = String a EmptyString /\ asciiSpace a = true)
  \/ (exists a b, w = String a (String b EmptyString) /\ space2 a b = true)
  \/ (exists a b c, w = String a (String b (String c EmptyString))
                    /\ space3 a b c = true).
Proof.
  unfold space_rune. rewrite existsb_exists. intros (x & Hx & E).
  apply String.eqb_eq in E. subst x. vm_compute in Hx.
  repeat (destruct Hx as [<-|Hx];
          [first [ left; eexists; split; reflexivity
                 | right; left; do 2 eexists; split; reflexivity
                 | right; right; do 3 eexists; split; reflexivity ]|]).
  destruct Hx.
Qed.

Lemma asciiSpace_rune (a : ascii) :
  asciiSpace a = true -> space_rune (String a EmptyString) = true.
Proof.
  intros H. unfold asciiSpace in H. rewrite <- (ascii_N_embedding a).
  set (n := N_of_ascii a) in *. cbv zeta in H.
  assert (Hn : (n = 9 \/ n = 10 \/ n = 11 \/ n = 12 \/ n = 13 \/ n = 32)%N).
  { apply orb_true_iff in H. destruct H as [H|H].
    - apply andb_true_iff in H. destruct H as [H1 H2].
      apply N.leb_le in H1, H2. lia.
    - apply N.eqb_eq in H. lia. }
  clearbody n. clear H.
  repeat (destruct Hn as [->|Hn]; [reflexivity|]). subst n. reflexivity.
Qed.

Lemma space2_rune (a b : ascii) :
  space2 a b = true -> space_rune (String a (String b EmptyString)) = true.
Proof.
  intros H. unfold space2 in H.
  rewrite <- (ascii_N_embedding a), <- (ascii_N_embedding b).
  set (x := N_of_ascii a) in *. set (y := N_of_ascii b) in *. cbv zeta in H.
  apply andb_true_iff in H. destruct H as [Hx Hy].
  apply N.eqb_eq in Hx. apply orb_true_iff in Hy.
  rewrite !N.eqb_eq in Hy. clearbody x y. subst x.
  destruct Hy as [->| ->]; reflexivity.
Qed.

Lemma space3_rune (a b c : ascii) :
  space3 a b c = true ->
  space_rune (String a (String b (String c EmptyString))) = true.
Proof.
  intros H. unfold space3 in H.
  rewrite <- (ascii_N_embedding a), <- (ascii_N_embedding b),
    <- (ascii_N_embedding c).
  set (x := N_of_ascii a) in *. set (y := N_of_ascii b) in *.
  set (z := N_of_ascii c) in *. cbv zeta in H. clearbody x y z.
  rewrite !orb_true_iff, !andb_true_iff, !orb_true_iff, !andb_true_iff,
    !N.eqb_eq, !N.leb_le in H.
  destruct H as [[[((-> & ->) & ->)|((-> & ->) & H)]|((-> & ->) & ->)]
                 |((-> & ->) & ->)]; try reflexivity.
  assert (Hz : (z = 128 \/ z = 129 \/ z = 130 \/ z = 131 \/ z = 132 \/ z = 133
                \/ z = 134 \/ z = 135 \/ z = 136 \/ z = 137 \/ z = 138
                \/ z = 168 \/ z = 169 \/ z = 175)%N) by lia.
  clear H.
  repeat (destruct Hz as [->|Hz]; [reflexivity|]). subst z. reflexivity.
Qed.

Lemma white_space_app (s t : string) :
  white_space s -> white_space t -> white_space (s +:+ t).
Proof.
  induction 1 as [|w s Hw Hs IH]; intros Ht; [exact Ht|].
  rewrite append_assoc. apply white_space_rune; auto.
Qed.

Lemma append_empty_r (s : string) : s +:+ EmptyString = s.
Proof.
  induction s as [|a s IH]; [reflexivity|].
  change (String a (s +:+ EmptyString) = String a s). now rewrite IH.
Qed.

Lemma white_space_one (w : string) : space_rune w = true -> white_space w.
Proof.
  intros H. rewrite <- (append_empty_r w).
  apply white_space_rune; [exact H | constructor].
Qed.

(** What [trim_spaces] removes is white space.  Read from the end of the
    string ([fwd = false]), the bytes removed are those of the white space
    in reverse. *)
Lemma trim_spaces_removed (fwd : bool) (n : nat) (s : string) :
  String.length s <= n ->
  exists pre, s = pre +:+ trim_spaces fwd s
              /\ white_space (if fwd then pre else String.rev pre).
Proof.
  revert s. induction n as [|n IH]; intros s Hlen.
  - destruct s; [|simpl in Hlen; lia]. exists EmptyString.
    split; [reflexivity|]. destruct fwd; constructor.
  - assert (Hkeep : forall t : string,
              exists pre, t = pre +:+ t
                          /\ white_space (if fwd then pre else String.rev pre)).
    { intros t. exists EmptyString. split; [reflexivity|].
      destruct fwd; constructor. }
    assert (Hdrop : forall (p t : string), String.length t <= n ->
              space_rune (if fwd then p else String.rev p) = true ->
              exists pre, p +:+ t = pre +:+ trim_spaces fwd t
                          /\ white_space (if fwd then pre else String.rev pre)).
    { intros p t Ht Hp. destruct (IH t Ht) as (pre & Hpre & Hw).
      exists (p +:+ pre). split.
      - rewrite append_assoc. now rewrite <- Hpre.
      - destruct fwd.
        + apply white_space_rune; assumption.
        + rewrite rev_append. apply white_space_app; [assumption|].
          now apply white_space_one. }
    destruct s as [|a [|b [|c s3]]]; simpl in Hlen; simpl.
    + exists EmptyString. split; [reflexivity|]. destruct fwd; constructor.
    + destruct (asciiSpace a) eqn:Ea; [|apply Hkeep].
      apply (Hdrop (String a EmptyString) EmptyString); [simpl; lia|].
      destruct fwd; now apply asciiSpace_rune.
    + destruct (asciiSpace a) eqn:Ea.
      * apply (Hdrop (String a EmptyString) (String b EmptyString)); [simpl; lia|].
        destruct fwd; now apply asciiSpace_rune.
      * destruct (if fwd then space2 a b else space2 b a) eqn:E2; [|apply Hkeep].
        apply (Hdrop (String a (String b EmptyString)) EmptyString); [simpl; lia|].
        destruct fwd; now apply space2_rune.
    + destruct (asciiSpace a) eqn:Ea.
      * apply (Hdrop (String a EmptyString) (String b (String c s3))); [simpl; lia|].
        destruct fwd; now apply asciiSpace_rune.
      * destruct (if fwd then space2 a b else space2 b a) eqn:E2.
        -- apply (Hdrop (String a (String b EmptyString)) (String c s3));
             [simpl; lia|].
           destruct fwd; now apply space2_rune.
        -- destruct (if fwd then space3 a b c else space3 c b a) eqn:E3;
             [|apply Hkeep].
           apply (Hdrop (String a (String b (String c EmptyString))) s3); [lia|].
           destruct fwd; now apply space3_rune.
Qed.

(** What [trim_spaces] leaves does not begin with the bytes of a rune of
    white space. *)
Lemma trim_spaces_head_bytes (fwd : bool) (n : nat) (s : string) :
  String.length s <= n ->
  match trim_spaces fwd s with
  | EmptyString => True
  | String a s1 =>
      asciiSpace a = false
      /\ match s1 with
         | EmptyString => True
         | String b s2 =>
             (if fwd then space2 a b else space2 b a) = false
             /\ match s2 with
                | EmptyString => True
                | String c _ =>
                    (if fwd then space3 a b c else space3 c b a) = false
                end
         end
  end.
Proof.
  revert s. induction n as [|n IH]; intros s Hlen.
  - destruct s; [|simpl in Hlen; lia]. exact I.
  - destruct s as [|a [|b [|c s3]]]; simpl in Hlen;
      cbn [trim_spaces].
    + exact I.
    + destruct (asciiSpace a) eqn:Ea; [exact I | auto].
    + destruct (asciiSpace a) eqn:Ea.
      * apply (IH (String b EmptyString)). simpl. lia.
      * destruct (if fwd then space2 a b else space2 b a) eqn:E2;
          [exact I | auto].
    + destruct (asciiSpace a) eqn:Ea.
      * apply (IH (String b (String c s3))). simpl. lia.
      * destruct (if fwd then space2 a b else space2 b a) eqn:E2.
        -- apply (IH (String c s3)). simpl. lia.
        -- destruct (if fwd then space3 a b c else space3 c b a) eqn:E3;
             [apply (IH s3); lia | auto].
Qed.

Lemma trim_spaces_kept (fwd : bool) (s w rest : string) :
  trim_spaces fwd s = w +:+ rest ->
  space_rune (if fwd then w else String.rev w) = false.
Proof.
  intros E. pose proof (trim_spaces_head_bytes fwd _ s (le_n _)) as H.
  rewrite E in H.
  destruct (space_rune (if fwd then w else String.rev w)) eqn:Hw; [|reflexivity].
  exfalso. apply space_rune_cases in Hw.
  assert (Hw' :
    (exists a, w = String a EmptyString /\ asciiSpace a = true)
    \/ (exists a b, w = String a (String b EmptyString)
                    /\ (if fwd then space2 a b else space2 b a) = true)
    \/ (exists a b c, w = String a (String b (String c EmptyString))
                      /\ (if fwd then space3 a b c else space3 c b a) = true)).
  { destruct fwd; [exact Hw|].
    destruct Hw as [(a & Ew & Ha)|[(a & b & Ew & Ha)|(a & b & c & Ew & Ha)]];
      apply (f_equal String.rev) in Ew; rewrite rev_involutive in Ew;
      [left|right; left|right; right]; eauto 6. }
  clear Hw.
  destruct Hw' as [(a & -> & Ha)|[(a & b & -> & Ha)|(a & b & c & -> & Ha)]];
    cbn in H.
  - destruct H as [H _]. congruence.
  - destruct H as (_ & H & _). congruence.
  - destruct H as (_ & _ & H). destruct rest; congruence.
Qed.

(** [TrimSpace] takes white space, and nothing else, from both ends of the
    line, and leaves none at either end. *)
Lemma TrimSpace_trims (line : string) :
  (exists pre post,
      line = pre +:+ TrimSpace line +:+ post
      /\ white_space pre /\ white_space post)
  /\ ~ begins_with_space (TrimSpace line)
  /\ ~ ends_with_space (TrimSpace line).
Proof.
  unfold TrimSpace, TrimRight, TrimLeft.
  destruct (trim_spaces_removed true _ line (le_n _)) as (pre & Hpre & Wpre).
  set (t0 := trim_spaces true line) in *.
  destruct (trim_spaces_removed false _ (String.rev t0) (le_n _))
    as (p & Hp & Wp).
  set (u := trim_spaces false (String.rev t0)) in *.
  apply (f_equal String.rev) in Hp. rewrite rev_involutive, rev_append in Hp.
  split; [|split].
  - exists pre, (String.rev p). rewrite <- Hp. auto.
  - intros (w & rest & Hw & E).
    assert (E0 : trim_spaces true line = w +:+ (rest +:+ String.rev p)).
    { fold t0. rewrite Hp, E. apply append_assoc. }
    apply (trim_spaces_kept true) in E0. congruence.
  - intros (rest & w & Hw & E).
    assert (E0 : trim_spaces false (String.rev t0) = String.rev w +:+ String.rev rest).
    { fold u. rewrite <- (rev_involutive u), E. apply rev_append. }
    apply (trim_spaces_kept false) in E0. rewrite rev_involutive in E0. congruence.
Qed.

(** White space of one, two and three bytes is trimmed at both ends; white
    space inside the line stays, and so do U+200B, which is no white space,
    and a first byte of a rune that its second byte does not follow. *)
Example TrimSpace_runes :
  TrimSpace (utf8 9 +:+ utf8 160 +:+ utf8 8195 +:+ "a " +:+ utf8 12288 +:+ "b"
             +:+ utf8 8232 +:+ utf8 133 +:+ utf8 13)
    = "a " +:+ utf8 12288 +:+ "b"
  /\ TrimSpace (utf8 8203 +:+ " ") = utf8 8203
  /\ TrimSpace (String (ascii_of_N 194) " a") = String (ascii_of_N 194) " a"
  /\ forallb (fun cp => String.eqb (TrimSpace (utf8 cp +:+ "a" +:+ utf8 cp)) "a")
       White_Space = true.
Proof. vm_compute. repeat split. Qed.

(** ** processStream calls back once for each line *)

(** [ReadBytes] cuts off the first line. *)
Lemma ReadBytes_Split (s : string) (d : ascii) :
  match ReadBytes s d with
  | (line, Some rest) =>
      exists l0, line = l0 +:+ String d EmptyString /\ Split s d = l0 :: Split rest d
  | (line, None) => Split s d = [line]
  end.
Proof.
  induction s as [|c s IH]; simpl; [reflexivity|].
  destruct (Ascii.eqb_spec c d) as [->|Hne].
  - exists EmptyString. split; reflexivity.
  - destruct (ReadBytes s d) as [line [rest|]].
    + destruct IH as (l0 & -> & ->). exists (String c l0). split; reflexivity.
    + now rewrite IH.
Qed.

Lemma processStream_loop_lines {St : Type} (rest : string) (fail : option string)
    (f : St -> list string -> outcome St) (st : St) :
  processStream_loop rest fail f st =
    match fail with
    | None => foldM f (map tokenize (lines rest)) st
    | Some e =>
        let! _ := foldM f (map tokenize (removelast (lines rest))) st in
        Err (read_error e)
    end.
Proof.
  funelim (processStream_loop rest fail f st); clear Heqcall.
  - pose proof (ReadBytes_Split rest newline) as HS. rewrite E in HS.
    destruct HS as (l0 & -> & HS). unfold lines in *. rewrite HS.
    rewrite TrimSpace_newline. fold (tokenize l0).
    pose proof (Split_not_nil rest' newline) as Hnn.
    destruct (processTokens0 st (tokenize l0)) as [st'| |] eqn:Ef; simpl.
    + rewrite H. destruct fail as [e|]; simpl.
      * destruct (Split rest' newline) as [|l1 ls] eqn:E'; [congruence|].
        simpl. now rewrite Ef.
      * now rewrite Ef.
    + destruct fail as [e'|]; simpl.
      * destruct (Split rest' newline) as [|l1 ls] eqn:E'; [congruence|].
        simpl. now rewrite Ef.
      * now rewrite Ef.
    + destruct fail as [e'|]; simpl.
      * destruct (Split rest' newline) as [|l1 ls] eqn:E'; [congruence|].
        simpl. now rewrite Ef.
      * now rewrite Ef.
  - pose proof (ReadBytes_Split rest newline) as HS. rewrite E in HS.
    unfold lines. rewrite HS. reflexivity.
  - pose proof (ReadBytes_Split rest newline) as HS. rewrite E in HS.
    unfold lines. rewrite HS. simpl. unfold tokenize.
    now destruct (processTokens0 st _).
Qed.

(** C7 - processStream.  For every input stream the per-line callback is
    invoked exactly once for each line, in order, the last line being what
    follows the last line feed (it needs no line feed after it, and it is
    the empty line when the input ends with a line feed or is empty); a
    reader that fails ends the calls before the unfinished line and its
    error is returned.  The lines are what stands between the line feeds.
    Each line has its leading and trailing white space trimmed: the line is
    white space, then the trimmed line, then white space, and the trimmed
    line neither begins nor ends with a rune of white space.  The trimmed
    line is then cut at every single [delim]: one token more than there are
    delimiters, so two delimiters in a row give an empty token; no token
    contains the delimiter; and the empty line gives one empty token. *)
Theorem processStream_once_per_line {St : Type} (r : Reader)
    (callback : St -> list string -> outcome St) (st : St) :
  processStream r callback st =
    match failure r with
    | None => foldM callback (map tokenize (lines (content r))) st
    | Some e =>
        let! _ := foldM callback (map tokenize (removelast (lines (content r)))) st in
        Err (read_error e)
    end
  /\ Join (lines (content r)) newline = content r
  /\ length (lines (content r)) = S (count_byte (content r) newline)
  /\ Forall (fun l => contains l newline = false) (lines (content r))
  /\ (forall line : string,
        (exists pre post,
            line = pre +:+ TrimSpace line +:+ post
            /\ white_space pre /\ white_space post)
        /\ ~ begins_with_space (TrimSpace line)
        /\ ~ ends_with_space (TrimSpace line)
        /\ Join (tokenize line) delim = TrimSpace line
        /\ length (tokenize line) = S (count_byte (TrimSpace line) delim)
        /\ Forall (fun t => contains t delim = false) (tokenize line))
  /\ tokenize EmptyString = [EmptyString].
Proof.
  split; [apply processStream_loop_lines|].
  split; [apply Join_Split|]. split; [apply Split_length|].
  split; [apply Split_no_sep|]. split; [|reflexivity].
  intros line. destruct (TrimSpace_trims line) as (Hline & Hb & He).
  split; [exact Hline|]. split; [exact Hb|]. split; [exact He|].
  split; [apply Join_Split|]. split; [apply Split_length|].
  apply Split_no_sep.
Qed.

(** Two spaces in a row, a last line without line feed, and the empty line
    after the last line feed. *)
Example processStream_tokens :
  processStream (Buffer "a  b
	c d ") (fun st ts => Ok (st ++ [ts])) [] = Ok [["a"; ""; "b"]; ["c"; "d"]]
  /\ processStream (Buffer "a b
") (fun st ts => Ok (st ++ [ts])) [] = Ok [["a"; "b"]; [""]]
  /\ processStream (mk_Reader "a b
c d" (Some "timeout")) (fun st ts => Ok (st ++ [ts])) []
     = Err (read_error "timeout").
Proof. vm_compute. repeat split. Qed.

(** ** The monadic loops *)

(** A callback that, on the states of [P] and the arguments of [Q], returns
    what the function [g] computes. *)
Lemma foldM_pure {St A : Type} (f : St -> A -> outcome St) (g : St -> A -> St)
    (P : St -> Prop) (Q : A -> Prop) (l : list A) (st : St) :
  (forall st x, P st -> Q x -> f st x = Ok (g st x) /\ P (g st x)) ->
  P st -> Forall Q l ->
  foldM f l st = Ok (fold_left g l st) /\ P (fold_left g l st).
Proof.
  intros Hf. revert st. induction l as [|x l IH]; intros st HP HQ; simpl.
  - split; [reflexivity | assumption].
  - inversion HQ; subst. destruct (Hf st x) as [-> HP']; auto. simpl. auto.
Qed.

(** A property that every returning call of the callback preserves. *)
Lemma foldM_invariant {St A : Type} (f : St -> A -> outcome St)
    (P : St -> Prop) (Q : A -> Prop) (l : list A) (st st' : St) :
  (forall st x st1, P st -> Q x -> f st x = Ok st1 -> P st1) ->
  P st -> Forall Q l -> foldM f l st = Ok st' -> P st'.
Proof.
  intros Hf. revert st. induction l as [|x l IH]; intros st HP HQ; simpl.
  - intros [= <-]. assumption.
  - inversion HQ; subst. destruct (f st x) as [st1| |] eqn:E; simpl;
      try discriminate. eauto.
Qed.

Lemma for_upto_invariant {St : Type} (body : Z -> St -> outcome St)
    (P : St -> Prop) (n : nat) (i : Z) (st st' : St) :
  (forall j st st1, P st -> body j st = Ok st1 -> P st1) ->
  P st -> for_upto n i body st = Ok st' -> P st'.
Proof.
  intros Hb. revert i st. induction n as [|n IH]; intros i st HP; simpl.
  - intros [= <-]. assumption.
  - destruct (body i st) as [st1| |] eqn:E; simpl; try discriminate. eauto.
Qed.

(** ** The first pass: every token of the corpus is added *)

Lemma processTokens_Adds (c : Chain) (ts : list string) :
  processTokens c ts = Ok (set_tokensIdx c (Adds (tokensIdx c) ts)).
Proof.
  unfold processTokens. f_equal. revert c.
  induction ts as [|t ts IH]; intros c; simpl.
  - now destruct c.
  - now rewrite IH.
Qed.

Lemma foldM_processTokens (ls : list (list string)) (c : Chain) :
  foldM processTokens ls c = Ok (set_tokensIdx c (Adds (tokensIdx c) (concat ls))).
Proof.
  revert c. induction ls as [|ts ls IH]; intros c; cbn [foldM].
  - now destruct c.
  - rewrite processTokens_Adds. cbn [bind]. rewrite IH. simpl.
    now rewrite Adds_app.
Qed.

(** A failing reader stops the first pass with its error; no pass panics
    there. *)
Lemma buildTokenIndex_spec (c : Chain) (r : Reader) :
  buildTokenIndex c r =
    match failure r with
    | None => Ok (set_tokensIdx c (Adds (tokensIdx c) (corpus_tokens (content r))))
    | Some e => Err (read_error e)
    end.
Proof.
  unfold buildTokenIndex, processStream. rewrite processStream_loop_lines.
  destruct (failure r); rewrite foldM_processTokens; reflexivity.
Qed.

(** ** The second pass: the starting prefixes *)

Lemma slice_take {A : Type} (s : list A) (i n : nat) :
  i + n <= length s ->
  slice s (Z.of_nat i) (Z.of_nat i + Z.of_nat n) = Ok (take n (drop i s)).
Proof.
  intros H. unfold slice, len.
  replace ((0 <=? Z.of_nat i)%Z) with true by (symmetry; apply Z.leb_le; lia).
  replace ((Z.of_nat i <=? Z.of_nat i + Z.of_nat n)%Z) with true
    by (symmetry; apply Z.leb_le; lia).
  replace ((Z.of_nat i + Z.of_nat n <=? Z.of_nat (length s))%Z) with true
    by (symmetry; apply Z.leb_le; lia).
  simpl. f_equal. f_equal; [lia|]. f_equal. lia.
Qed.

Lemma slice_prefix {A : Type} (s : list A) (n : nat) :
  n <= length s -> slice s 0 (Z.of_nat n) = Ok (take n s).
Proof.
  intros H. pose proof (slice_take s 0 n ltac:(lia)) as Hs.
  now rewrite Z.add_0_l in Hs.
Qed.

Lemma processStartingPrefixes_spec (c : Chain) (ts : list string) (n : nat) :
  prefixLength c = Z.of_nat n ->
  processStartingPrefixes c ts =
    Ok (if decide (n <= length ts)
        then set_startingPrefixIdx c
               (Add (startingPrefixIdx c) (Join (take n ts) delim))
        else c).
Proof.
  intros Hpl. unfold processStartingPrefixes. rewrite Hpl. unfold len at 1.
  destruct (decide (n <= length ts)) as [Hle|Hgt].
  - replace ((Z.of_nat (length ts) >=? Z.of_nat n)%Z) with true
      by (symmetry; apply Z.geb_le; lia).
    rewrite slice_prefix by assumption. reflexivity.
  - replace ((Z.of_nat (length ts) >=? Z.of_nat n)%Z) with false; [reflexivity|].
    symmetry. rewrite Z.geb_leb. apply Z.leb_gt. lia.
Qed.

Lemma foldM_processStartingPrefixes (ls : list (list string)) (c : Chain) (n : nat) :
  prefixLength c = Z.of_nat n ->
  foldM processStartingPrefixes ls c =
    Ok (set_startingPrefixIdx c
          (Adds (startingPrefixIdx c) (starting_prefixes n ls))).
Proof.
  revert c. induction ls as [|ts ls IH]; intros c Hpl.
  - simpl. now destruct c.
  - cbn [foldM]. rewrite (processStartingPrefixes_spec c ts n Hpl). cbn [bind].
    unfold starting_prefixes. rewrite filter_cons.
    destruct (decide (n <= length ts)).
    + rewrite IH by assumption. reflexivity.
    + rewrite IH by assumption. reflexivity.
Qed.

(** With a negative prefix length the second pass panics on its first
    line: [tokens[:c.prefixLength]] is out of range. *)
Lemma foldM_processStartingPrefixes_negative (ls : list (list string)) (c : Chain) :
  (prefixLength c < 0)%Z -> ls <> [] ->
  foldM processStartingPrefixes ls c = Panic slice_out_of_range.
Proof.
  intros Hpl Hne. destruct ls as [|ts ls]; [congruence|]. cbn [foldM].
  unfold processStartingPrefixes, len.
  replace ((Z.of_nat (length ts) >=? prefixLength c)%Z) with true
    by (symmetry; apply Z.geb_le; lia).
  unfold slice. replace ((0 <=? prefixLength c)%Z) with false
    by (symmetry; apply Z.leb_gt; lia).
  reflexivity.
Qed.

Lemma corpus_lines_not_nil (data : string) : corpus_lines data <> [].
Proof.
  unfold corpus_lines, lines. pose proof (Split_not_nil data newline).
  destruct (Split data newline); [congruence | discriminate].
Qed.

(** ** The third pass: windows and starting positions *)

Lemma wrap64_small (z : Z) : (- 2 ^ 63 <= z < 2 ^ 63)%Z -> wrap64 z = z.
Proof. intros H. unfold wrap64. rewrite Z.mod_small; lia. Qed.

Lemma windows_unfold (n : nat) (ts : list string) :
  windows n ts =
    match ts !! n with
    | Some suffix => (Join (take n ts) delim, suffix) :: windows n (drop 1 ts)
    | None => []
    end.
Proof. destruct ts as [|t ts]; [reflexivity|]. simpl. now rewrite drop_0. Qed.

Lemma windows_short (n : nat) (ts : list string) :
  length ts <= n -> windows n ts = [].
Proof.
  intros H. rewrite windows_unfold. now rewrite lookup_ge_None_2 by lia.
Qed.

Lemma at_index_lookup {A : Type} (s : list A) (i : nat) (x : A) :
  s !! i = Some x -> at_index s (Z.of_nat i) = Ok x.
Proof.
  intros H. unfold at_index.
  replace ((Z.of_nat i <? 0)%Z) with false by (symmetry; apply Z.ltb_ge; lia).
  now rewrite Nat2Z.id, H.
Qed.

(** One turn of the loop of [buildChain], when both lookups succeed. *)
Lemma processPhrase_body_spec (ts : list string) (n i : nat) (c : Chain)
    (suffix : string) :
  prefixLength c = Z.of_nat n ->
  (Z.of_nat (length ts) < 2 ^ 63)%Z ->
  ts !! (i + n) = Some suffix ->
  Find (tokensIdx c) suffix <> (-1)%Z ->
  (i = 0 -> Find (startingPrefixIdx c) (Join (take n ts) delim) <> (-1)%Z) ->
  processPhrase_body ts (Z.of_nat i) c =
    Ok (mk_Chain (record (tokensIdx c) (chain c)
                         (Join (take n (drop i ts)) delim, suffix))
                 (tokensIdx c)
                 (sp c ++ if decide (i = 0)
                          then [Find (startingPrefixIdx c) (Join (take n ts) delim)]
                          else [])
                 (startingPrefixIdx c)
                 (prefixLength c)).
Proof.
  intros Hpl Hlen Hsuf Hfind Hstart. unfold processPhrase_body.
  apply lookup_lt_Some in Hsuf as Hlt. rewrite Hpl.
  rewrite wrap64_small by lia.
  rewrite slice_take by lia. cbn [bind].
  rewrite <- Nat2Z.inj_add. rewrite (at_index_lookup _ _ _ Hsuf). cbn [bind].
  apply Z.eqb_neq in Hfind. rewrite Hfind.
  destruct (decide (i = 0)) as [->|Hne].
  - simpl Z.of_nat. rewrite Z.eqb_refl. cbn [chain tokensIdx sp startingPrefixIdx set_chain].
    rewrite drop_0 in *. specialize (Hstart eq_refl).
    apply Z.eqb_neq in Hstart. rewrite Hstart.
    unfold set_sp, set_chain, record. simpl. now rewrite Hpl.
  - replace ((Z.of_nat i =? 0)%Z) with false by (symmetry; apply Z.eqb_neq; lia).
    unfold set_chain, record. simpl. now rewrite Hpl, app_nil_r.
Qed.

(** The turns of the loop from window [i] on, [k] of them. *)
Lemma processPhrase_loop (ts : list string) (n k i : nat) (c : Chain) :
  prefixLength c = Z.of_nat n ->
  (Z.of_nat (length ts) < 2 ^ 63)%Z ->
  i + n + k = length ts ->
  (forall t, t ∈ ts -> Find (tokensIdx c) t <> (-1)%Z) ->
  (n < length ts -> Find (startingPrefixIdx c) (Join (take n ts) delim) <> (-1)%Z) ->
  for_upto k (Z.of_nat i) (processPhrase_body ts) c =
    Ok (mk_Chain (fold_left (record (tokensIdx c)) (windows n (drop i ts)) (chain c))
                 (tokensIdx c)
                 (sp c ++ if decide (i = 0 /\ 0 < k)
                          then [Find (startingPrefixIdx c) (Join (take n ts) delim)]
                          else [])
                 (startingPrefixIdx c)
                 (prefixLength c)).
Proof.
  revert i c. induction k as [|k IH]; intros i c Hpl Hlen Hk Hfind Hstart.
  - simpl. rewrite windows_short by (rewrite length_drop; lia). simpl.
    destruct (decide (i = 0 /\ 0 < 0)); [lia|]. rewrite app_nil_r. now destruct c.
  - destruct (lookup_lt_is_Some_2 ts (i + n)) as [suffix Hsuf]; [lia|].
    cbn [for_upto].
    rewrite (processPhrase_body_spec ts n i c suffix); auto.
    2:{ apply Hfind. apply list_elem_of_lookup. eauto. }
    2:{ intros _. apply Hstart. lia. }
    cbn [bind]. replace (Z.of_nat i + 1)%Z with (Z.of_nat (S i)) by lia.
    rewrite IH; auto; [|lia]. cbn [chain tokensIdx sp startingPrefixIdx prefixLength].
    rewrite (windows_unfold n (drop i ts)), lookup_drop, Hsuf, drop_drop.
    replace (i + 1) with (S i) by lia. cbn [fold_left].
    rewrite <- app_assoc.
    set (x := Find (startingPrefixIdx c) (Join (take n ts) delim)).
    assert (Hsp : (if decide (i = 0) then [x] else [])
                  ++ (if decide (S i = 0 /\ 0 < k) then [x] else [])
                  = if decide (i = 0 /\ 0 < S k) then [x] else []).
    { destruct (decide (S i = 0 /\ 0 < k)); [lia|]. rewrite app_nil_r.
      destruct (decide (i = 0)); destruct (decide (i = 0 /\ 0 < S k)); try lia;
        reflexivity. }
    now rewrite Hsp.
Qed.

(** The closure of [buildChain] records the windows of the line and, when
    the line has a first window, the position of its starting prefix. *)
Lemma processPhrase_spec (ts : list string) (n : nat) (c : Chain) :
  prefixLength c = Z.of_nat n ->
  (Z.of_nat n < 2 ^ 63)%Z ->
  (Z.of_nat (length ts) < 2 ^ 63)%Z ->
  (forall t, t ∈ ts -> Find (tokensIdx c) t <> (-1)%Z) ->
  (n < length ts -> Find (startingPrefixIdx c) (Join (take n ts) delim) <> (-1)%Z) ->
  processPhrase c ts = Ok (record_phrase n c ts).
Proof.
  intros Hpl Hn Hlen Hfind Hstart. unfold processPhrase, record_phrase, len.
  rewrite Hpl. rewrite wrap64_small by lia.
  destruct (decide (n < length ts)) as [Hlt|Hge].
  - replace (Z.to_nat (Z.of_nat (length ts) - Z.of_nat n)) with (length ts - n) by lia.
    change 0%Z with (Z.of_nat 0).
    rewrite (processPhrase_loop ts n (length ts - n) 0 c); auto; [|lia].
    rewrite drop_0, Hpl.
    destruct (decide (0 = 0 /\ 0 < length ts - n)); [reflexivity | lia].
  - replace (Z.to_nat (Z.of_nat (length ts) - Z.of_nat n)) with 0 by lia.
    simpl. rewrite windows_short by lia. simpl. rewrite app_nil_r.
    rewrite <- Hpl. now destruct c.
Qed.

(** [Find] gives the position of a token of a sorted index that fits. *)
Lemma Find_valid (idx : index) (t : string) :
  sorted (tokens idx) -> (len (tokens idx) <= 2 ^ 31)%Z -> t ∈ tokens idx ->
  exists p, tokens idx !! p = Some t /\ Find idx t = Z.of_nat p.
Proof.
  intros Hs Hlen Hin. apply list_elem_of_lookup in Hin as [p Hp].
  exists p. split; [assumption|]. rewrite (Find_present _ _ _ Hs Hp).
  apply lookup_lt_Some in Hp. unfold len in Hlen. apply int32_small. lia.
Qed.

Lemma Find_valid_not_minus_one (idx : index) (t : string) :
  sorted (tokens idx) -> (len (tokens idx) <= 2 ^ 31)%Z -> t ∈ tokens idx ->
  Find idx t <> (-1)%Z.
Proof.
  intros Hs Hlen Hin. destruct (Find_valid idx t Hs Hlen Hin) as (p & _ & ->). lia.
Qed.

Lemma fold_record_phrase (n : nat) (ls : list (list string)) (c : Chain) :
  fold_left (record_phrase n) ls c =
    mk_Chain (fold_left (record (tokensIdx c)) (concat (map (windows n) ls)) (chain c))
             (tokensIdx c)
             (sp c ++ map (Find (startingPrefixIdx c)) (phrase_starts n ls))
             (startingPrefixIdx c)
             (prefixLength c).
Proof.
  revert c. induction ls as [|ts ls IH]; intros c.
  - simpl. rewrite app_nil_r. now destruct c.
  - cbn [fold_left]. rewrite IH. unfold record_phrase at 1 2 3 4 5 6.
    cbn [chain tokensIdx sp startingPrefixIdx prefixLength].
    cbn [map concat]. rewrite fold_left_app.
    unfold phrase_starts. rewrite filter_cons.
    destruct (decide (n < length ts)).
    + cbn [map]. now rewrite <- app_assoc.
    + now rewrite app_nil_r.
Qed.

Lemma foldM_processPhrase (n : nat) (ls : list (list string)) (c : Chain) :
  prefixLength c = Z.of_nat n ->
  (Z.of_nat n < 2 ^ 63)%Z ->
  Forall (fun ts =>
            (Z.of_nat (length ts) < 2 ^ 63)%Z
            /\ (forall t, t ∈ ts -> Find (tokensIdx c) t <> (-1)%Z)
            /\ (n < length ts ->
                Find (startingPrefixIdx c) (Join (take n ts) delim) <> (-1)%Z)) ls ->
  foldM processPhrase ls c = Ok (fold_left (record_phrase n) ls c).
Proof.
  intros Hpl Hn Hall.
  refine (proj1 (foldM_pure processPhrase (record_phrase n)
           (fun c' => tokensIdx c' = tokensIdx c
                      /\ startingPrefixIdx c' = startingPrefixIdx c
                      /\ prefixLength c' = Z.of_nat n) _ ls c _ _ Hall)); auto.
  intros c' ts (E1 & E2 & E3) (H1 & H2 & H3). split.
  - apply processPhrase_spec; auto; rewrite ?E1, ?E2; auto.
  - unfold record_phrase. simpl. auto.
Qed.

Lemma concat_length_elem {A : Type} (ls : list (list A)) (ts : list A) :
  ts ∈ ls -> length ts <= length (concat ls).
Proof.
  induction ls as [|l ls IH]; intros Hin.
  - now apply elem_of_nil in Hin.
  - simpl. rewrite length_app. apply elem_of_cons in Hin as [->|Hin]; [lia|].
    specialize (IH Hin). lia.
Qed.

(** The three passes over the same bytes, in closed form. *)
Lemma Build_passes_spec (c : Chain) (tr b1 b2 : Reader) (n : nat) :
  content b1 = content tr -> content b2 = content tr ->
  failure tr = None -> failure b1 = None -> failure b2 = None ->
  prefixLength c = Z.of_nat n -> (Z.of_nat n < 2 ^ 63)%Z ->
  sorted (tokens (tokensIdx c)) -> sorted (tokens (startingPrefixIdx c)) ->
  fits_int32 c (content tr) ->
  Build_passes c tr b1 b2 = Ok (Build_result n c (corpus_lines (content tr))).
Proof.
  intros Hb1 Hb2 Ftr Fb1 Fb2 Hpl Hn Hs1 Hs2 [Hfit1 Hfit2].
  unfold Build_passes. rewrite buildTokenIndex_spec, Ftr. cbn [bind].
  unfold buildPrefixIndex, buildChain, processStream.
  rewrite !processStream_loop_lines, Fb1, Fb2, Hb1, Hb2.
  fold (corpus_lines (content tr)). set (ls := corpus_lines (content tr)) in *.
  unfold corpus_tokens in *. fold ls in Hfit1 |- *.
  rewrite (foldM_processStartingPrefixes ls _ n) by assumption. cbn [bind].
  set (idx := Adds (tokensIdx c) (concat ls)).
  set (sidx := Adds (startingPrefixIdx c) (starting_prefixes n ls)).
  cbn [startingPrefixIdx set_tokensIdx set_startingPrefixIdx tokensIdx chain sp prefixLength].
  fold sidx.
  assert (Hsi : sorted (tokens idx)) by (apply Adds_sorted; assumption).
  assert (Hss : sorted (tokens sidx)) by (apply Adds_sorted; assumption).
  assert (Hli : (len (tokens idx) <= 2 ^ 31)%Z).
  { pose proof (Adds_length (concat ls) _ Hs1). fold idx in H. unfold len in *. lia. }
  assert (Hls : (len (tokens sidx) <= 2 ^ 31)%Z).
  { pose proof (Adds_length (starting_prefixes n ls) _ Hs2) as H. fold sidx in H.
    assert (length (starting_prefixes n ls) <= length ls).
    { unfold starting_prefixes. rewrite length_map. apply length_filter. }
    unfold len in *. lia. }
  rewrite processStream_loop_lines. fold (corpus_lines (content tr)). fold ls.
  rewrite (foldM_processPhrase n); cbn [prefixLength tokensIdx startingPrefixIdx]; auto.
  - rewrite fold_record_phrase. reflexivity.
  - apply Forall_forall. intros ts Hts. split; [|split].
    + pose proof (concat_length_elem ls ts Hts). unfold len in *. lia.
    + intros t Ht. apply Find_valid_not_minus_one; auto.
      unfold idx. apply Adds_elem_of. left.
      apply list_elem_of_In, in_concat. exists ts.
      split; apply list_elem_of_In; assumption.
    + intros Hlt. apply Find_valid_not_minus_one; auto.
      unfold sidx. apply Adds_elem_of. left.
      unfold starting_prefixes. apply list_elem_of_In, in_map_iff.
      exists ts. split; [reflexivity|]. apply list_elem_of_In.
      apply list_elem_of_filter. split; [lia | assumption].
Qed.

(** [Build] on a reader that ends with [io.EOF]. *)
Lemma Build_spec (c : Chain) (r : Reader) (n : nat) :
  failure r = None ->
  prefixLength c = Z.of_nat n -> (Z.of_nat n < 2 ^ 63)%Z ->
  sorted (tokens (tokensIdx c)) -> sorted (tokens (startingPrefixIdx c)) ->
  fits_int32 c (content r) ->
  Build c r = Ok (Build_result n c (corpus_lines (content r))).
Proof.
  intros. unfold Build. apply Build_passes_spec; auto.
Qed.

Lemma Build_failure (c : Chain) (r : Reader) (e : string) :
  failure r = Some e -> Build c r = Err (read_error e).
Proof.
  intros H. unfold Build, Build_passes. now rewrite buildTokenIndex_spec, H.
Qed.

(** The expectations of Test_BuildChain. *)
Example Test_BuildChain :
  exists c, Build (NewChain 2) (Buffer test_data) = Ok c
    /\ tokens (tokensIdx c)
       = ["bar"; "brown"; "dog."; "foo"; "fox,"; "hello."; "jumps"; "lazy";
          "over"; "quick"; "the"; "zoo."]
    /\ tokens (startingPrefixIdx c) = ["foo bar"; "the quick"]
    /\ sp c = [1; 0; 0]%Z
    /\ chain c = list_to_map
         [("the quick", [1]); ("quick brown", [4]); ("brown fox,", [6; 5]);
          ("fox, jumps", [8]); ("jumps over", [10]); ("over the", [7]);
          ("the lazy", [2]); ("foo bar", [1; 11]); ("bar brown", [4])]%Z.
Proof.
  eexists. split; [vm_compute; reflexivity|].
  repeat split; vm_compute; reflexivity.
Qed.

(** C4 - The lookups of the final pass succeed.  Whenever the three passes
    read the same bytes, on a chain whose indexes are sorted and whose
    positions fit, [Build] never panics with "can't find token in Index"
    nor with "can't find starting prefix in Index": the only panic left is
    the slice out of range of the second pass, for a negative prefix length;
    with a prefix length of at least 0 and a reader that does not fail, the
    three passes return a chain. *)
Theorem Build_lookups_succeed (c : Chain) (tr b1 b2 : Reader) :
  content b1 = content tr -> content b2 = content tr ->
  failure b1 = None -> failure b2 = None ->
  (- 2 ^ 63 <= prefixLength c < 2 ^ 63)%Z ->
  sorted (tokens (tokensIdx c)) -> sorted (tokens (startingPrefixIdx c)) ->
  fits_int32 c (content tr) ->
  Build_passes c tr b1 b2 <> Panic cant_find_token
  /\ Build_passes c tr b1 b2 <> Panic cant_find_prefix
  /\ ((0 <= prefixLength c)%Z -> failure tr = None ->
      Build_passes c tr b1 b2
      = Ok (Build_result (Z.to_nat (prefixLength c)) c (corpus_lines (content tr)))).
Proof.
  intros Hb1 Hb2 Fb1 Fb2 Hpl Hs1 Hs2 Hfit.
  destruct (failure tr) as [e|] eqn:Ftr.
  { unfold Build_passes. rewrite buildTokenIndex_spec, Ftr. cbn [bind].
    repeat split; try discriminate. }
  destruct (Z_lt_ge_dec (prefixLength c) 0) as [Hneg|Hpos].
  - assert (E : Build_passes c tr b1 b2 = Panic slice_out_of_range).
    { unfold Build_passes. rewrite buildTokenIndex_spec, Ftr. cbn [bind].
      unfold buildPrefixIndex, processStream.
      rewrite processStream_loop_lines, Fb1, Hb1.
      rewrite foldM_processStartingPrefixes_negative; [reflexivity | assumption |].
      apply corpus_lines_not_nil. }
    rewrite E. repeat split; try discriminate. lia.
  - assert (E : Build_passes c tr b1 b2
                = Ok (Build_result (Z.to_nat (prefixLength c)) c (corpus_lines (content tr)))).
    { apply Build_passes_spec; auto; lia. }
    rewrite E. repeat split; discriminate.
Qed.

Lemma Build_lookups_succeed_witness :
  content (Buffer test_data) = content (Buffer test_data)
  /\ failure (Buffer test_data) = None
  /\ (- 2 ^ 63 <= prefixLength (NewChain 2) < 2 ^ 63)%Z
  /\ sorted (tokens (tokensIdx (NewChain 2)))
  /\ sorted (tokens (startingPrefixIdx (NewChain 2)))
  /\ fits_int32 (NewChain 2) (content (Buffer test_data))
  /\ Build_passes (NewChain 2) (Buffer test_data) (Buffer test_data) (Buffer test_data)
     <> Panic cant_find_token
  /\ Build_passes (NewChain 2) (Buffer test_data) (Buffer test_data) (Buffer test_data)
     <> Panic cant_find_prefix.
Proof.
  assert (Hr : (- 2 ^ 63 <= prefixLength (NewChain 2) < 2 ^ 63)%Z) by (simpl; lia).
  assert (Hs : sorted (tokens (tokensIdx (NewChain 2)))) by constructor.
  assert (Hf : fits_int32 (NewChain 2) (content (Buffer test_data))).
  { split; apply Z.leb_le; vm_compute; reflexivity. }
  pose proof (Build_lookups_succeed (NewChain 2) (Buffer test_data)
                (Buffer test_data) (Buffer test_data)
                eq_refl eq_refl eq_refl eq_refl Hr Hs Hs Hf) as (H1 & H2 & _).
  repeat split; assumption || reflexivity || apply Hr.
Defined.

(** ** The chain map encodes the frequencies *)

Lemma record_lookup (idx : index) (m : gmap string (list Z)) (w : string * string)
    (p : string) :
  record idx m w !!! p
  = (m !!! p) ++ (if decide (w.1 = p) then [Find idx w.2] else []).
Proof.
  unfold record. destruct (decide (w.1 = p)) as [<-|Hne].
  - now rewrite lookup_total_insert_eq.
  - rewrite lookup_total_insert_ne by assumption. now rewrite app_nil_r.
Qed.

(** The entry of [p] after recording the windows [ws]: the positions of the
    suffixes that follow [p], in the order of the corpus. *)
Lemma fold_record_lookup (idx : index) (ws : list (string * string))
    (m : gmap string (list Z)) (p : string) :
  fold_left (record idx) ws m !!! p
  = (m !!! p) ++ map (Find idx) (map snd (filter (fun w => w.1 = p) ws)).
Proof.
  revert m. induction ws as [|w ws IH]; intros m; simpl.
  - now rewrite app_nil_r.
  - rewrite IH, record_lookup, filter_cons.
    destruct (decide (w.1 = p)); simpl.
    + now rewrite <- app_assoc.
    + now rewrite app_nil_r.
Qed.

Lemma windows_suffix_elem (n : nat) (ts : list string) (w : string * string) :
  w ∈ windows n ts -> w.2 ∈ ts.
Proof.
  induction ts as [|t ts IH]; simpl; [intros H; now apply elem_of_nil in H|].
  destruct ((t :: ts) !! n) as [suffix|] eqn:E; [|intros H; now apply elem_of_nil in H].
  intros H. apply elem_of_cons in H as [->|H].
  - simpl. apply list_elem_of_lookup. eauto.
  - apply list_elem_of_further. auto.
Qed.

(** On the tokens of an index that fits, [Find] tells tokens apart. *)
Lemma Find_eq_iff (idx : index) (s t : string) :
  sorted (tokens idx) -> (len (tokens idx) <= 2 ^ 31)%Z -> s ∈ tokens idx ->
  Find idx s = Find idx t <-> s = t.
Proof.
  intros Hs Hlen Hin. split; [|now intros ->].
  destruct (Find_valid idx s Hs Hlen Hin) as (p & Hp & Ep).
  destruct (decide (t ∈ tokens idx)) as [Ht|Ht].
  - destruct (Find_valid idx t Hs Hlen Ht) as (q & Hq & Eq).
    rewrite Ep, Eq. intros E. apply Nat2Z.inj in E. subst. congruence.
  - rewrite (Find_absent idx t Ht), Ep. lia.
Qed.

Lemma count_occ_Find (idx : index) (sufs : list string) (t : string) :
  sorted (tokens idx) -> (len (tokens idx) <= 2 ^ 31)%Z ->
  Forall (fun s => s ∈ tokens idx) sufs ->
  count_occ Z.eq_dec (map (Find idx) sufs) (Find idx t)
  = length (filter (fun s => s = t) sufs).
Proof.
  intros Hs Hlen. induction 1 as [|s sufs Hin Hall IH]; [reflexivity|].
  cbn [map count_occ]. rewrite filter_cons.
  pose proof (Find_eq_iff idx s t Hs Hlen Hin) as Hiff.
  destruct (Z.eq_dec (Find idx s) (Find idx t)) as [E|E];
    destruct (decide (s = t)) as [E'|E']; simpl; try tauto; now rewrite IH.
Qed.

Lemma filter_pair_length (ws : list (string * string)) (p t : string) :
  length (filter (fun s => s = t) (map snd (filter (fun w => w.1 = p) ws)))
  = length (filter (fun w => w = (p, t)) ws).
Proof.
  induction ws as [|[p' t'] ws IH]; [reflexivity|].
  rewrite !filter_cons. simpl.
  destruct (decide (p' = p)) as [Hp|Hp]; simpl.
  - rewrite filter_cons.
    destruct (decide (t' = t)) as [Ht|Ht];
      destruct (decide ((p', t') = (p, t))) as [E|E]; simpl; try congruence.
  - destruct (decide ((p', t') = (p, t))) as [E|E]; [congruence | assumption].
Qed.

Lemma NewChain_sorted (pl : Z) :
  sorted (tokens (tokensIdx (NewChain pl)))
  /\ sorted (tokens (startingPrefixIdx (NewChain pl))).
Proof. split; constructor. Qed.

(** A successful [Build] of a new chain, in closed form. *)
Lemma Build_NewChain (pl : Z) (r : Reader) (c : Chain) :
  (0 <= pl < 2 ^ 63)%Z ->
  fits_int32 (NewChain pl) (content r) ->
  Build (NewChain pl) r = Ok c ->
  c = Build_result (Z.to_nat pl) (NewChain pl) (corpus_lines (content r)).
Proof.
  intros Hpl Hfit HB. destruct (failure r) as [e|] eqn:Fr.
  - rewrite (Build_failure _ _ _ Fr) in HB. discriminate.
  - destruct (NewChain_sorted pl) as [Hs1 Hs2].
    rewrite (Build_spec _ _ (Z.to_nat pl)) in HB; auto; simpl; try lia.
    congruence.
Qed.

(** C6 - Frequency encoding.  After [Build] of a new chain, for every
    prefix string [p] and every token [t], the position of [t] in the token
    index occurs in the chain entry of [p] as often as the corpus has a
    sliding window whose [prefixLength] tokens join to [p] and are followed
    by [t]. *)
Theorem Build_chain_frequencies (pl : Z) (r : Reader) (c : Chain) (p t : string) :
  (0 <= pl < 2 ^ 63)%Z ->
  fits_int32 (NewChain pl) (content r) ->
  Build (NewChain pl) r = Ok c ->
  count_occ Z.eq_dec (chain c !!! p) (Find (tokensIdx c) t)
  = length (filter (fun w => w = (p, t)) (corpus_windows (Z.to_nat pl) (content r))).
Proof.
  intros Hpl Hfit HB. pose proof Hfit as [Hfit1 _].
  apply (Build_NewChain pl r c Hpl Hfit) in HB. subst c.
  unfold Build_result. cbn [chain tokensIdx NewChain].
  set (ls := corpus_lines (content r)).
  set (idx := Adds empty_index (concat ls)).
  rewrite fold_record_lookup, lookup_total_empty.
  change (@inhabitant (list Z) _) with (@nil Z). cbn [app].
  assert (Hs : sorted (tokens idx)) by (apply Adds_sorted; constructor).
  assert (Hlen : (len (tokens idx) <= 2 ^ 31)%Z).
  { pose proof (Adds_length (concat ls) empty_index ltac:(constructor)) as H.
    fold idx in H. unfold corpus_tokens in Hfit1. fold ls in Hfit1.
    unfold len in *. simpl in *. lia. }
  rewrite count_occ_Find; auto.
  - apply filter_pair_length.
  - apply Forall_forall. intros s Hin.
    apply list_elem_of_In, in_map_iff in Hin as (w & <- & Hw).
    apply list_elem_of_In, list_elem_of_filter in Hw as [_ Hw].
    apply list_elem_of_In, in_concat in Hw as (ws & Hws & Hw).
    apply in_map_iff in Hws as (ts & <- & Hts).
    apply list_elem_of_In, windows_suffix_elem in Hw.
    unfold idx. apply Adds_elem_of. left.
    apply list_elem_of_In, in_concat. exists ts. split; [assumption|].
    now apply list_elem_of_In.
Qed.

Lemma Build_chain_frequencies_witness :
  (0 <= 2 < 2 ^ 63)%Z
  /\ fits_int32 (NewChain 2) (content (Buffer test_data))
  /\ (exists c, Build (NewChain 2) (Buffer test_data) = Ok c
        /\ count_occ Z.eq_dec (chain c !!! "foo bar") (Find (tokensIdx c) "zoo.")
           = length (filter (fun w => w = ("foo bar", "zoo."))
                            (corpus_windows (Z.to_nat 2) (content (Buffer test_data))))).
Proof.
  assert (Hr : (0 <= 2 < 2 ^ 63)%Z) by lia.
  assert (Hf : fits_int32 (NewChain 2) (content (Buffer test_data))).
  { split; apply Z.leb_le; vm_compute; reflexivity. }
  split; [exact Hr|]. split; [exact Hf|].
  destruct (Build (NewChain 2) (Buffer test_data)) as [c| |] eqn:E;
    [|vm_compute in E; discriminate E|vm_compute in E; discriminate E].
  exists c. split; [reflexivity|].
  exact (Build_chain_frequencies 2 (Buffer test_data) c "foo bar" "zoo." Hr Hf E).
Defined.

(** ** What every returning pass preserves *)

Lemma tokenize_tokenized (line : string) : tokenized (tokenize line).
Proof. split; [apply Split_not_nil | apply Split_no_sep]. Qed.

Lemma processStream_invariant {St : Type} (r : Reader)
    (f : St -> list string -> outcome St) (P : St -> Prop) (st st' : St) :
  (forall st ts st1, P st -> tokenized ts -> f st ts = Ok st1 -> P st1) ->
  P st -> processStream r f st = Ok st' -> P st'.
Proof.
  intros Hf HP. unfold processStream. rewrite processStream_loop_lines.
  destruct (failure r) as [e|].
  - destruct (foldM f _ st); simpl; discriminate.
  - apply (foldM_invariant f P tokenized); auto.
    apply Forall_forall. intros ts Hts.
    apply list_elem_of_In, in_map_iff in Hts as (line & <- & _).
    apply tokenize_tokenized.
Qed.

(** What a returning turn of the loop of [buildChain] has changed. *)
Lemma processPhrase_body_Ok (ts : list string) (i : Z) (c c1 : Chain) :
  processPhrase_body ts i c = Ok c1 ->
  tokensIdx c1 = tokensIdx c
  /\ startingPrefixIdx c1 = startingPrefixIdx c
  /\ prefixLength c1 = prefixLength c
  /\ (exists prefix suffix,
        suffix ∈ ts
        /\ chain c1 = <[prefix := (chain c !!! prefix) ++ [Find (tokensIdx c) suffix]]> (chain c))
  /\ (sp c1 = sp c
      \/ exists prefix, Find (startingPrefixIdx c) prefix <> (-1)%Z
                        /\ sp c1 = sp c ++ [Find (startingPrefixIdx c) prefix]).
Proof.
  unfold processPhrase_body.
  destruct (slice ts i _) as [window| |]; cbn [bind]; try discriminate.
  destruct (at_index ts _) as [suffix| |] eqn:Eat; cbn [bind]; try discriminate.
  assert (Hin : suffix ∈ ts).
  { unfold at_index in Eat. destruct (_ <? 0)%Z; [discriminate|].
    destruct (ts !! _) eqn:E; [|discriminate]. injection Eat as <-.
    apply list_elem_of_lookup. eauto. }
  destruct (Find (tokensIdx c) suffix =? -1)%Z; [discriminate|].
  destruct (i =? 0)%Z.
  - cbn [startingPrefixIdx set_chain].
    destruct (Find (startingPrefixIdx c) (Join window delim) =? -1)%Z eqn:E;
      [discriminate|].
    intros [= <-]. simpl. repeat split; eauto.
    right. exists (Join window delim). split; [|reflexivity].
    now apply Z.eqb_neq.
  - intros [= <-]. simpl. repeat split; eauto.
Qed.

Lemma extends_refl (c : Chain) : extends c c.
Proof.
  repeat split; auto.
  - exists []. now rewrite app_nil_r.
  - intros p. exists []. now rewrite app_nil_r.
Qed.

Lemma extends_trans (c1 c2 c3 : Chain) :
  extends c1 c2 -> extends c2 c3 -> extends c1 c3.
Proof.
  intros (Hp & Ht & Hs & [k Hk] & Hc) (Hp' & Ht' & Hs' & [k' Hk'] & Hc').
  repeat split; auto; try congruence.
  - exists (k ++ k'). now rewrite Hk', Hk, app_assoc.
  - intros p. destruct (Hc p) as [l Hl]. destruct (Hc' p) as [l' Hl'].
    exists (l ++ l'). now rewrite Hl', Hl, app_assoc.
Qed.

Lemma processTokens_extends (c c1 : Chain) (ts : list string) :
  processTokens c ts = Ok c1 -> extends c c1.
Proof.
  rewrite processTokens_Adds. intros [= <-].
  repeat split; simpl; auto.
  - intros t Ht. apply Adds_elem_of. auto.
  - exists []. now rewrite app_nil_r.
  - intros p. exists []. now rewrite app_nil_r.
Qed.

(** What a returning call of the closure of [buildPrefixIndex] has done. *)
Lemma processStartingPrefixes_Ok (c c1 : Chain) (ts : list string) :
  processStartingPrefixes c ts = Ok c1 ->
  c1 = c
  \/ exists n, prefixLength c = Z.of_nat n /\ n <= length ts
               /\ c1 = set_startingPrefixIdx c
                         (Add (startingPrefixIdx c) (Join (take n ts) delim)).
Proof.
  destruct (Z_lt_ge_dec (prefixLength c) 0) as [Hneg|Hpos].
  - unfold processStartingPrefixes, len.
    replace ((Z.of_nat (length ts) >=? prefixLength c)%Z) with true
      by (symmetry; apply Z.geb_le; lia).
    unfold slice. replace ((0 <=? prefixLength c)%Z) with false
      by (symmetry; apply Z.leb_gt; lia).
    discriminate.
  - rewrite (processStartingPrefixes_spec c ts (Z.to_nat (prefixLength c))) by lia.
    destruct (decide _); intros [= <-]; [right | left; reflexivity].
    exists (Z.to_nat (prefixLength c)). repeat split; [lia | assumption].
Qed.

Lemma processStartingPrefixes_extends (c c1 : Chain) (ts : list string) :
  processStartingPrefixes c ts = Ok c1 -> extends c c1.
Proof.
  intros H. apply processStartingPrefixes_Ok in H as [->|(n & _ & _ & ->)];
    [apply extends_refl|].
  repeat split; simpl; auto.
  - intros s Hs. apply Add_elem_of. auto.
  - exists []. now rewrite app_nil_r.
  - intros p. exists []. now rewrite app_nil_r.
Qed.

Lemma processPhrase_body_extends (ts : list string) (i : Z) (c c1 : Chain) :
  processPhrase_body ts i c = Ok c1 -> extends c c1.
Proof.
  intros H. apply processPhrase_body_Ok in H
    as (E1 & E2 & E3 & (prefix & suffix & _ & Ec) & Esp).
  repeat split; auto.
  - now rewrite E1.
  - now rewrite E2.
  - destruct Esp as [->|(x & _ & ->)]; [exists []; now rewrite app_nil_r | eauto].
  - intros p. rewrite Ec. destruct (decide (prefix = p)) as [->|Hne].
    + rewrite lookup_total_insert_eq. eauto.
    + rewrite lookup_total_insert_ne by assumption. exists []. now rewrite app_nil_r.
Qed.

Lemma processPhrase_extends (c c1 : Chain) (ts : list string) :
  processPhrase c ts = Ok c1 -> extends c c1.
Proof.
  unfold processPhrase.
  apply (for_upto_invariant (processPhrase_body ts) (extends c)).
  - intros j st st1 Hst Hb. eapply extends_trans; [exact Hst|].
    eapply processPhrase_body_extends; eauto.
  - apply extends_refl.
Qed.

Lemma Build_extends (c c' : Chain) (r : Reader) :
  Build c r = Ok c' -> extends c c'.
Proof.
  unfold Build, Build_passes, buildTokenIndex, buildPrefixIndex, buildChain.
  destruct (processStream r processTokens c) as [c1| |] eqn:E1;
    cbn [bind]; try discriminate.
  destruct (processStream _ processStartingPrefixes c1) as [c2| |] eqn:E2;
    cbn [bind]; try discriminate.
  intros E3.
  apply (processStream_invariant _ _ (extends c)) in E1;
    [|intros st ts st1 Hst _ Hf; eapply extends_trans;
      [exact Hst | eapply processTokens_extends; eauto] | apply extends_refl].
  apply (processStream_invariant _ _ (extends c)) in E2;
    [|intros st ts st1 Hst _ Hf; eapply extends_trans;
      [exact Hst | eapply processStartingPrefixes_extends; eauto] | assumption].
  apply (processStream_invariant _ _ (extends c)) in E3;
    [assumption
    |intros st ts st1 Hst _ Hf; eapply extends_trans;
      [exact Hst | eapply processPhrase_extends; eauto] | assumption].
Qed.

(** The third pass leaves the two indexes as they are. *)
Lemma processPhrase_indexes (c c1 : Chain) (ts : list string) :
  processPhrase c ts = Ok c1 ->
  tokensIdx c1 = tokensIdx c /\ startingPrefixIdx c1 = startingPrefixIdx c.
Proof.
  unfold processPhrase.
  apply (for_upto_invariant (processPhrase_body ts)
           (fun c' => tokensIdx c' = tokensIdx c
                      /\ startingPrefixIdx c' = startingPrefixIdx c)); [|auto].
  intros j st st1 [E1 E2] Hb.
  apply processPhrase_body_Ok in Hb as (E1' & E2' & _). split; congruence.
Qed.

(** The indexes after a returning [Build]: the tokens of the corpus, and the
    starting prefixes of its lines, merged into what the chain held. *)
Lemma Build_indexes (c c' : Chain) (r : Reader) :
  Build c r = Ok c' ->
  tokensIdx c' = Adds (tokensIdx c) (corpus_tokens (content r))
  /\ startingPrefixIdx c'
     = Adds (startingPrefixIdx c)
            (starting_prefixes (Z.to_nat (prefixLength c)) (corpus_lines (content r))).
Proof.
  intros HB. destruct (failure r) as [e|] eqn:Fr.
  { rewrite (Build_failure _ _ _ Fr) in HB. discriminate. }
  unfold Build, Build_passes in HB. rewrite buildTokenIndex_spec, Fr in HB.
  cbn [bind] in HB. unfold buildPrefixIndex, processStream in HB.
  rewrite processStream_loop_lines in HB. cbn [failure content Buffer] in HB.
  fold (corpus_lines (content r)) in HB.
  destruct (Z_lt_ge_dec (prefixLength c) 0) as [Hneg|Hpos].
  { rewrite foldM_processStartingPrefixes_negative in HB;
      [discriminate | assumption | apply corpus_lines_not_nil]. }
  rewrite (foldM_processStartingPrefixes _ _ (Z.to_nat (prefixLength c))) in HB
    by (simpl; lia).
  cbn [bind] in HB. unfold buildChain in HB.
  apply (processStream_invariant _ _
           (fun c'' => tokensIdx c'' = Adds (tokensIdx c) (corpus_tokens (content r))
                       /\ startingPrefixIdx c''
                          = Adds (startingPrefixIdx c)
                              (starting_prefixes (Z.to_nat (prefixLength c))
                                 (corpus_lines (content r))))) in HB; auto.
  intros st ts st1 [E1 E2] _ Hf. apply processPhrase_indexes in Hf as [E1' E2'].
  split; congruence.
Qed.

(** C9 - [Build] never resets a chain.  Whatever the chain holds, a [Build]
    that returns keeps the prefix length, every token and every starting
    prefix, and appends to the starting list and to every entry of the chain
    map; the tokens and the starting prefixes of the new corpus are merged
    into the two indexes.  The positions recorded before may then refer to
    other tokens: after a first corpus "b c" and a second corpus "a b"
    (prefix length 1) the first starting position, 0, refers to "a" instead
    of "b", and the position recorded for the successor of "b", 1, refers to
    "b" instead of "c". *)
Theorem Build_never_resets :
  (forall (c c' : Chain) (r : Reader),
      Build c r = Ok c' ->
      extends c c'
      /\ tokensIdx c' = Adds (tokensIdx c) (corpus_tokens (content r))
      /\ startingPrefixIdx c'
         = Adds (startingPrefixIdx c)
                (starting_prefixes (Z.to_nat (prefixLength c))
                                   (corpus_lines (content r))))
  /\ (exists c1 c2,
        Build (NewChain 1) (Buffer "b c") = Ok c1
        /\ Build c1 (Buffer "a b") = Ok c2
        /\ sp c1 = [0]%Z /\ Get (startingPrefixIdx c1) 0 = Ok "b"
        /\ sp c2 = [0; 0]%Z /\ Get (startingPrefixIdx c2) 0 = Ok "a"
        /\ chain c1 !!! "b" = [1]%Z /\ Get (tokensIdx c1) 1 = Ok "c"
        /\ chain c2 !!! "b" = [1]%Z /\ Get (tokensIdx c2) 1 = Ok "b").
Proof.
  split.
  { intros c c' r HB. split; [now apply (Build_extends c c' r)|].
    now apply Build_indexes. }
  destruct (Build (NewChain 1) (Buffer "b c")) as [c1| |] eqn:E1;
    [|vm_compute in E1; discriminate E1|vm_compute in E1; discriminate E1].
  destruct (Build c1 (Buffer "a b")) as [c2| |] eqn:E2;
    vm_compute in E1; injection E1 as <-;
    [|vm_compute in E2; discriminate E2|vm_compute in E2; discriminate E2].
  vm_compute in E2. injection E2 as <-.
  eexists _, _. split; [vm_compute; reflexivity|].
  split; [vm_compute; reflexivity|].
  repeat split; vm_compute; reflexivity.
Qed.

Lemma Build_never_resets_witness :
  exists c', Build (NewChain 1) (Buffer "b c") = Ok c'
             /\ extends (NewChain 1) c'
             /\ tokens (tokensIdx c') = ["b"; "c"].
Proof.
  destruct (Build (NewChain 1) (Buffer "b c")) as [c'| |] eqn:E;
    [|vm_compute in E; discriminate E|vm_compute in E; discriminate E].
  exists c'.
  destruct (proj1 Build_never_resets (NewChain 1) c' (Buffer "b c") E)
    as (Hext & Htok & _).
  split; [reflexivity|]. split; [exact Hext|].
  rewrite Htok. reflexivity.
Defined.

(** ** The starting list *)

(** After [Build] of a new chain the starting list has one entry for every
    line with more than [prefixLength] tokens. *)
Lemma Build_sp (pl : Z) (r : Reader) (c : Chain) :
  (0 <= pl < 2 ^ 63)%Z ->
  fits_int32 (NewChain pl) (content r) ->
  Build (NewChain pl) r = Ok c ->
  sp c = map (Find (startingPrefixIdx c))
             (phrase_starts (Z.to_nat pl) (corpus_lines (content r)))
  /\ length (sp c)
     = length (filter (fun ts => Z.to_nat pl < length ts) (corpus_lines (content r))).
Proof.
  intros Hpl Hfit HB. apply (Build_NewChain pl r c Hpl Hfit) in HB. subst c.
  unfold Build_result. cbn [sp startingPrefixIdx NewChain app].
  split; [reflexivity|]. unfold phrase_starts. now rewrite !length_map.
Qed.

(** C2 - The starting list.  The claim asks for one entry of [sp] for every
    line with at least [prefixLength] tokens.  With prefix length 2 the
    corpus "a b" is one line of two tokens; the second pass registers its
    starting prefix "a b", but the third pass leaves [sp] empty. *)
Theorem Build_sp_misses_line_of_prefixLength_tokens :
  corpus_lines "a b" = [["a"; "b"]]
  /\ exists c, Build (NewChain 2) (Buffer "a b") = Ok c
               /\ tokens (startingPrefixIdx c) = ["a b"]
               /\ sp c = [].
Proof.
  split; [vm_compute; reflexivity|].
  eexists. split; [vm_compute; reflexivity|].
  split; vm_compute; reflexivity.
Qed.

(** ** Generate *)

Lemma Generate_empty_sp (c : Chain) (l : Z) (d : rand) :
  sp c = [] -> Generate c l d = Panic invalid_Intn.
Proof. intros H. unfold Generate. now rewrite H. Qed.

(** C1 - Empty chain.  The claim asks for an error.  The corpus "hello" has
    no line of 2 tokens; [Build] with prefix length 2 returns a chain whose
    [sp] is empty, and every [Generate] on it panics in [rand.Intn(0)]. *)
Theorem Generate_empty_chain_panics :
  exists c, Build (NewChain 2) (Buffer "hello") = Ok c
            /\ sp c = []
            /\ forall l d, Generate c l d = Panic invalid_Intn.
Proof.
  eexists. split; [vm_compute; reflexivity|].
  split; [reflexivity|]. intros l d. now apply Generate_empty_sp.
Qed.

(** ** The strings of a built chain *)

Lemma NewChain_prefixes_ok (n : nat) : prefixes_ok n (NewChain (Z.of_nat n)).
Proof.
  repeat split; simpl; intros x Hx; now apply elem_of_nil in Hx.
Qed.

Lemma processTokens_prefixes_ok (n : nat) (c c1 : Chain) (ts : list string) :
  prefixes_ok n c -> tokenized ts -> processTokens c ts = Ok c1 -> prefixes_ok n c1.
Proof.
  intros (Hp & Hs & Ht) [_ Hts]. rewrite processTokens_Adds. intros [= <-].
  repeat split; simpl; auto.
  intros t Hin. apply Adds_elem_of in Hin as [Hin|Hin]; [|auto].
  rewrite Forall_forall in Hts. auto.
Qed.

Lemma processStartingPrefixes_prefixes_ok (n : nat) (c c1 : Chain) (ts : list string) :
  1 <= n ->
  prefixes_ok n c -> tokenized ts -> processStartingPrefixes c ts = Ok c1 ->
  prefixes_ok n c1.
Proof.
  intros Hn (Hp & Hs & Ht) [_ Hts] H.
  apply processStartingPrefixes_Ok in H as [->|(m & Hm & Hle & ->)];
    [repeat split; assumption|].
  assert (m = n) by lia. subst m.
  repeat split; simpl; auto.
  intros s Hin. apply Add_elem_of in Hin as [->|Hin]; [|auto].
  rewrite Split_Join.
  - rewrite length_take. lia.
  - destruct ts as [|t ts]; simpl in Hle; [lia|].
    destruct n as [|n]; [lia|]. intros E. inversion E.
  - now apply Forall_take.
Qed.

Lemma processPhrase_prefixes_ok (n : nat) (c c1 : Chain) (ts : list string) :
  prefixes_ok n c -> processPhrase c ts = Ok c1 -> prefixes_ok n c1.
Proof.
  intros Hok. unfold processPhrase.
  apply (for_upto_invariant (processPhrase_body ts) (prefixes_ok n)); [|assumption].
  intros j st st1 (Hp & Hs & Ht) Hb.
  apply processPhrase_body_Ok in Hb as (E1 & E2 & E3 & _).
  repeat split; rewrite ?E1, ?E2, ?E3; assumption.
Qed.

Lemma Build_prefixes_ok (n : nat) (c c' : Chain) (r : Reader) :
  1 <= n -> prefixes_ok n c -> Build c r = Ok c' -> prefixes_ok n c'.
Proof.
  intros Hn Hok.
  unfold Build, Build_passes, buildTokenIndex, buildPrefixIndex, buildChain.
  destruct (processStream r processTokens c) as [c1| |] eqn:E1;
    cbn [bind]; try discriminate.
  destruct (processStream _ processStartingPrefixes c1) as [c2| |] eqn:E2;
    cbn [bind]; try discriminate.
  intros E3.
  apply (processStream_invariant _ _ (prefixes_ok n)) in E1;
    [|intros; eapply processTokens_prefixes_ok; eauto | assumption].
  apply (processStream_invariant _ _ (prefixes_ok n)) in E2;
    [|intros; eapply processStartingPrefixes_prefixes_ok; eauto | assumption].
  apply (processStream_invariant _ _ (prefixes_ok n)) in E3;
    [assumption | intros; eapply processPhrase_prefixes_ok; eauto | assumption].
Qed.

(** ** Generate returns the error only for a short starting prefix *)

Lemma at_index_Ok {A : Type} (s : list A) (i : Z) (x : A) :
  at_index s i = Ok x -> x ∈ s /\ (0 <= i < len s)%Z.
Proof.
  unfold at_index, len. destruct (i <? 0)%Z eqn:E; [discriminate|].
  destruct (s !! Z.to_nat i) eqn:El; [|discriminate]. intros [= <-].
  apply Z.ltb_ge in E. split; [apply list_elem_of_lookup; eauto|].
  apply lookup_lt_Some in El. lia.
Qed.

Lemma at_index_not_Err {A : Type} (s : list A) (i : Z) (e : error) :
  at_index s i <> Err e.
Proof.
  unfold at_index. destruct (i <? 0)%Z; [discriminate|].
  destruct (s !! Z.to_nat i); discriminate.
Qed.

Lemma slice_not_Err {A : Type} (s : list A) (lo hi : Z) (e : error) :
  slice s lo hi <> Err e.
Proof. unfold slice. destruct (_ && _); discriminate. Qed.

Lemma Intn_not_Err (n : Z) (d : rand) (e : error) : Intn n d <> Err e.
Proof. unfold Intn. destruct (n <=? 0)%Z; discriminate. Qed.

Lemma Generate_loop_not_Err (c : Chain) (l : Z) (sentence : list string)
    (d : rand) (e : error) :
  Generate_loop c l sentence d <> Err e.
Proof.
  funelim (Generate_loop c l sentence d); [|discriminate].
  clear Heqcall Heq.
  destruct (slice sentence _ _) as [prefix| |] eqn:Es; cbn [bind];
    [|now apply slice_not_Err in Es|discriminate].
  destruct (decide (len (chain c !!! Join prefix delim) = 0%Z)) as [|Hne];
    [discriminate|].
  destruct (Intn _ d) as [[i d']| |] eqn:Ei; cbn [bind];
    [|now apply Intn_not_Err in Ei|discriminate].
  destruct (at_index _ i) as [suffixI| |] eqn:Ea; cbn [bind];
    [|now apply at_index_not_Err in Ea|discriminate].
  destruct (Get (tokensIdx c) suffixI) as [suffix| |] eqn:Eg; cbn [bind];
    [|now apply at_index_not_Err in Eg|discriminate].
  exact (H prefix Hne (i, d') i d' suffixI suffix e).
Qed.

(** C10 - The error branch of [Generate].  For every chain that a [Build]
    of a new chain with prefix length at least 1 returns, every stored
    starting prefix splits on the delimiter into exactly [prefixLength]
    tokens and no token of the index contains the delimiter, so [Generate]
    never returns its "sentence must begin with at least N tokens" error
    (nor any other error). *)
Theorem Generate_error_unreachable (pl : Z) (r : Reader) (c : Chain) :
  (1 <= pl)%Z ->
  Build (NewChain pl) r = Ok c ->
  prefixLength c = pl
  /\ (forall s, s ∈ tokens (startingPrefixIdx c) -> len (Split s delim) = pl)
  /\ (forall t, t ∈ tokens (tokensIdx c) -> contains t delim = false)
  /\ (forall l d e, Generate c l d <> Err e).
Proof.
  intros Hpl HB.
  assert (Hok : prefixes_ok (Z.to_nat pl) c).
  { apply (Build_prefixes_ok _ (NewChain pl) c r); [lia| |assumption].
    rewrite <- (Z2Nat.id pl) at 2 by lia. apply NewChain_prefixes_ok. }
  destruct Hok as (Hp & Hs & Ht).
  assert (Hs' : forall s, s ∈ tokens (startingPrefixIdx c) -> len (Split s delim) = pl).
  { intros s Hin. unfold len. rewrite (Hs s Hin). lia. }
  split; [lia|]. split; [assumption|]. split; [assumption|].
  intros l d e. unfold Generate.
  destruct (Intn _ d) as [[i d']| |] eqn:Ei; cbn [bind];
    [|now apply Intn_not_Err in Ei|discriminate].
  destruct (at_index (sp c) i) as [spi| |] eqn:Ea; cbn [bind];
    [|now apply at_index_not_Err in Ea|discriminate].
  destruct (Get (startingPrefixIdx c) spi) as [prefix| |] eqn:Eg; cbn [bind];
    [|now apply at_index_not_Err in Eg|discriminate].
  apply at_index_Ok in Eg as [Hin _]. rewrite (Hs' prefix Hin).
  replace (pl <? prefixLength c)%Z with false by (symmetry; apply Z.ltb_ge; lia).
  destruct (Generate_loop c l _ d') as [sentence| |] eqn:El; cbn [bind];
    [discriminate | now apply Generate_loop_not_Err in El | discriminate].
Qed.

Lemma Generate_error_unreachable_witness :
  (1 <= 2)%Z
  /\ exists c, Build (NewChain 2) (Buffer test_data) = Ok c
               /\ (forall s, s ∈ tokens (startingPrefixIdx c) -> len (Split s delim) = 2%Z)
               /\ (forall l d e, Generate c l d <> Err e).
Proof.
  assert (Hpl : (1 <= 2)%Z) by lia.
  split; [exact Hpl|].
  destruct (Build (NewChain 2) (Buffer test_data)) as [c| |] eqn:E;
    [|vm_compute in E; discriminate E|vm_compute in E; discriminate E].
  exists c. split; [reflexivity|].
  destruct (Generate_error_unreachable 2 (Buffer test_data) c Hpl E)
    as (_ & H1 & _ & H2).
  split; assumption.
Defined.

(** ** The length of a generated phrase *)

Lemma at_index_valid {A : Type} (s : list A) (i : Z) :
  (0 <= i < len s)%Z -> exists x, at_index s i = Ok x /\ x ∈ s.
Proof.
  intros H. unfold at_index, len in *.
  replace (i <? 0)%Z with false by (symmetry; apply Z.ltb_ge; lia).
  destruct (lookup_lt_is_Some_2 s (Z.to_nat i)) as [x Hx]; [lia|].
  rewrite Hx. exists x. split; [reflexivity|]. apply list_elem_of_lookup. eauto.
Qed.

Lemma Intn_valid (n : Z) (d : rand) :
  (0 < n)%Z -> exists i d', Intn n d = Ok (i, d') /\ (0 <= i < n)%Z.
Proof.
  intros H. unfold Intn.
  replace (n <=? 0)%Z with false by (symmetry; apply Z.leb_gt; lia).
  eexists _, _. split; [reflexivity|]. apply Z.mod_pos_bound. lia.
Qed.

(** [sentence[len(sentence)-n:]] is the last [n] tokens. *)
Lemma slice_last {A : Type} (s : list A) (n : nat) :
  n <= length s -> (Z.of_nat (length s) < 2 ^ 63)%Z ->
  slice s (wrap64 (len s - Z.of_nat n)) (len s) = Ok (drop (length s - n) s).
Proof.
  intros Hn Hlen. unfold len. rewrite wrap64_small by lia.
  replace (Z.of_nat (length s) - Z.of_nat n)%Z with (Z.of_nat (length s - n)) by lia.
  pose proof (slice_take s (length s - n) n ltac:(lia)) as H.
  replace (Z.of_nat (length s - n) + Z.of_nat n)%Z with (Z.of_nat (length s)) in H by lia.
  rewrite H. f_equal. apply take_ge. rewrite length_drop. lia.
Qed.

(** The positions that [Build] stores in a new chain are valid. *)
Lemma Build_positions_ok (pl : Z) (r : Reader) (c : Chain) :
  (0 <= pl < 2 ^ 63)%Z ->
  fits_int32 (NewChain pl) (content r) ->
  Build (NewChain pl) r = Ok c ->
  positions_ok c.
Proof.
  intros Hpl Hfit HB. pose proof Hfit as [Hfit1 Hfit2].
  apply (Build_NewChain pl r c Hpl Hfit) in HB. subst c.
  unfold positions_ok, Build_result.
  cbn [chain tokensIdx sp startingPrefixIdx NewChain app].
  set (n := Z.to_nat pl). set (ls := corpus_lines (content r)) in *.
  set (idx := Adds empty_index (concat ls)).
  set (sidx := Adds empty_index (starting_prefixes n ls)).
  assert (Hsi : sorted (tokens idx)) by (apply Adds_sorted; constructor).
  assert (Hss : sorted (tokens sidx)) by (apply Adds_sorted; constructor).
  assert (Hli : (len (tokens idx) <= 2 ^ 31)%Z).
  { pose proof (Adds_length (concat ls) empty_index ltac:(constructor)) as H.
    fold idx in H. unfold corpus_tokens in Hfit1. fold ls in Hfit1.
    unfold len in *. simpl in *. lia. }
  assert (Hls : (len (tokens sidx) <= 2 ^ 31)%Z).
  { pose proof (Adds_length (starting_prefixes n ls) empty_index ltac:(constructor)) as H.
    fold sidx in H.
    assert (length (starting_prefixes n ls) <= length ls).
    { unfold starting_prefixes. rewrite length_map. apply length_filter. }
    unfold len in *. simpl in *. lia. }
  assert (Hvalid : forall i t, sorted (tokens i) -> (len (tokens i) <= 2 ^ 31)%Z ->
                               t ∈ tokens i -> (0 <= Find i t < len (tokens i))%Z).
  { intros i t Hs Hl Hin. destruct (Find_valid i t Hs Hl Hin) as (q & Hq & ->).
    apply lookup_lt_Some in Hq. unfold len. lia. }
  split.
  - intros x Hx. apply list_elem_of_In, in_map_iff in Hx as (s & <- & Hs).
    apply Hvalid; auto. unfold sidx. apply Adds_elem_of. left.
    unfold phrase_starts in Hs. apply in_map_iff in Hs as (ts & <- & Hts).
    apply list_elem_of_In, list_elem_of_filter in Hts as [Hlt Hts].
    unfold starting_prefixes. apply list_elem_of_In, in_map_iff.
    exists ts. split; [reflexivity|]. apply list_elem_of_In.
    apply list_elem_of_filter. split; [lia | assumption].
  - intros p x Hx. rewrite fold_record_lookup, lookup_total_empty in Hx.
    change (@inhabitant (list Z) _) with (@nil Z) in Hx. cbn [app] in Hx.
    apply list_elem_of_In, in_map_iff in Hx as (s & <- & Hin).
    apply Hvalid; auto.
    apply in_map_iff in Hin as (w & <- & Hw).
    apply list_elem_of_In, list_elem_of_filter in Hw as [_ Hw].
    apply list_elem_of_In, in_concat in Hw as (ws & Hws & Hw).
    apply in_map_iff in Hws as (ts & <- & Hts).
    apply list_elem_of_In, windows_suffix_elem in Hw.
    unfold idx. apply Adds_elem_of. left.
    apply list_elem_of_In, in_concat. exists ts. split; [assumption|].
    now apply list_elem_of_In.
Qed.

(** The loop of [Generate] on a well-formed chain: it returns a sentence
    that is no shorter, no longer than [l] unless it was so already, and
    when it stops below [l] the last [n] tokens have no successor. *)
Lemma Generate_loop_spec (n : nat) (c : Chain) (l : Z) (sentence : list string)
    (d : rand) :
  prefixes_ok n c -> positions_ok c ->
  (Z.of_nat n < 2 ^ 63)%Z -> (l < 2 ^ 63)%Z ->
  n <= length sentence -> (Z.of_nat (length sentence) < 2 ^ 63)%Z ->
  Forall (fun t => contains t delim = false) sentence ->
  exists s', Generate_loop c l sentence d = Ok s'
    /\ length sentence <= length s'
    /\ (len s' <= Z.max (len sentence) l)%Z
    /\ Forall (fun t => contains t delim = false) s'
    /\ ((len s' < l)%Z -> chain c !!! Join (drop (length s' - n) s') delim = []).
Proof.
  funelim (Generate_loop c l sentence d);
    intros Hok Hpos Hn Hl Hlen Hlen63 Hfree; clear Heqcall Heq.
  - pose proof Hok as (Hpl & _ & Htok). pose proof Hpos as (_ & Hch).
    rewrite Hpl. rewrite slice_last by assumption. cbn [bind].
    set (key := Join (drop (length sentence - n) sentence) delim) in *.
    destruct (decide (len (chain c !!! key) = 0%Z)) as [He|Hne].
    + exists sentence. split; [reflexivity|]. split; [lia|]. split; [lia|].
      split; [assumption|]. intros _. fold key.
      destruct (chain c !!! key); [reflexivity | discriminate].
    + destruct (Intn_valid (len (chain c !!! key)) d) as (i & d' & Ei & Hi).
      { unfold len in *. lia. }
      rewrite Ei. cbn [bind].
      destruct (at_index_valid (chain c !!! key) i Hi) as (suffixI & Ea & Hin).
      rewrite Ea. cbn [bind].
      destruct (at_index_valid (tokens (tokensIdx c)) suffixI (Hch _ _ Hin))
        as (suffix & Eg & Hsuf).
      unfold Get. rewrite Eg. cbn [bind].
      destruct (H (drop (length sentence - n) sentence) Hne (i, d') i d' suffixI
                  suffix n Hok Hpos Hn Hl)
        as (s' & Es & H1 & H2 & H3 & H4).
      * rewrite length_app. simpl. lia.
      * rewrite length_app. simpl. unfold len in *. lia.
      * apply Forall_app. split; [assumption|]. repeat constructor. auto.
      * exists s'. split; [assumption|].
        rewrite length_app in H1. unfold len in *. rewrite length_app in H2.
        simpl in *. split; [lia|]. split; [lia|]. split; assumption.
  - exists sentence. split; [reflexivity|]. split; [lia|]. split; [lia|].
    split; [assumption|]. intros Hlt. lia.
Qed.

(** [Generate] on a well-formed chain with a non-empty starting list. *)
Lemma Generate_spec (n : nat) (c : Chain) (l : Z) (d : rand) :
  1 <= n -> prefixes_ok n c -> positions_ok c ->
  (Z.of_nat n < 2 ^ 63)%Z -> (l < 2 ^ 63)%Z -> sp c <> [] ->
  exists ts, Generate c l d = Ok (Join ts delim)
    /\ Split (Join ts delim) delim = ts
    /\ (Z.of_nat n <= len ts <= Z.max (Z.of_nat n) l)%Z
    /\ ((len ts < l)%Z -> chain c !!! Join (drop (length ts - n) ts) delim = []).
Proof.
  intros Hn1 Hok Hpos Hn Hl Hsp. pose proof Hok as (Hpl & Hst & _).
  pose proof Hpos as (Hspv & _). unfold Generate.
  destruct (Intn_valid (len (sp c)) d) as (i & d' & Ei & Hi).
  { unfold len. destruct (sp c); [congruence | simpl; lia]. }
  rewrite Ei. cbn [bind].
  destruct (at_index_valid (sp c) i Hi) as (spi & Ea & Hin). rewrite Ea. cbn [bind].
  destruct (at_index_valid (tokens (startingPrefixIdx c)) spi (Hspv _ Hin))
    as (prefix & Eg & Hpre).
  unfold Get. rewrite Eg. cbn [bind].
  pose proof (Hst prefix Hpre) as Hlen.
  unfold len at 1. rewrite Hlen, Hpl.
  replace (Z.of_nat n <? Z.of_nat n)%Z with false by (symmetry; apply Z.ltb_irrefl).
  destruct (Generate_loop_spec n c l (Split prefix delim) d' Hok Hpos Hn Hl)
    as (s' & Es & H1 & H2 & H3 & H4).
  - lia.
  - lia.
  - apply Split_no_sep.
  - rewrite Es. cbn [bind]. exists s'. split; [reflexivity|].
    split; [|split; [|assumption]].
    + apply Split_Join; [|assumption]. destruct s'; [simpl in H1; lia | discriminate].
    + unfold len in *. rewrite Hlen in H1, H2. lia.
Qed.

(** The claim as it is stated fails when [maxLength] is below the prefix
    length: with prefix length 2 and the corpus "a b c", [Generate(1)]
    returns the starting prefix "a b", a phrase of 2 tokens. *)
Lemma Generate_exceeds_maxLength :
  exists c, Build (NewChain 2) (Buffer "a b c") = Ok c
    /\ sp c <> []
    /\ forall d, Generate c 1 d = Ok "a b"
                 /\ token_count "a b" = 2%Z
                 /\ ~ (2 <= token_count "a b" <= 1)%Z.
Proof.
  eexists. split; [vm_compute; reflexivity|]. split; [discriminate|].
  intros d. split; [|split; [reflexivity | vm_compute; intros [_ H]; apply H; reflexivity]].
  unfold Generate. cbn [sp]. unfold Intn, len. cbn [length Z.of_nat Z.leb Z.compare].
  cbn [bind]. rewrite Z.mod_1_r. vm_compute. reflexivity.
Qed.

(** C3 (amended) - Generation bounds.  For every call [Generate(maxLength)]
    on a chain built (prefix length at least 1) from a corpus that gives it
    a non-empty starting list, a phrase is returned and its token count is
    at least [prefixLength] and at most the larger of [prefixLength] and
    [maxLength]: between [prefixLength] and [maxLength] whenever
    [maxLength >= prefixLength].  It stops below [maxLength] only when the
    chain has no transition for the last [prefixLength] tokens. *)
Theorem Generate_bounds (pl l : Z) (r : Reader) (c : Chain) (d : rand) :
  (1 <= pl < 2 ^ 63)%Z -> (l < 2 ^ 63)%Z ->
  fits_int32 (NewChain pl) (content r) ->
  Build (NewChain pl) r = Ok c ->
  sp c <> [] ->
  exists phrase, Generate c l d = Ok phrase
    /\ (pl <= token_count phrase <= Z.max pl l)%Z
    /\ ((pl <= l)%Z -> (pl <= token_count phrase <= l)%Z)
    /\ ((token_count phrase < l)%Z ->
        chain c !!! Join (drop (length (Split phrase delim) - Z.to_nat pl)
                               (Split phrase delim)) delim = []).
Proof.
  intros Hpl Hl Hfit HB Hsp.
  assert (Hok : prefixes_ok (Z.to_nat pl) c).
  { apply (Build_prefixes_ok _ (NewChain pl) c r); [lia| |assumption].
    rewrite <- (Z2Nat.id pl) at 2 by lia. apply NewChain_prefixes_ok. }
  assert (Hpos : positions_ok c) by (apply (Build_positions_ok pl r c); auto; lia).
  destruct (Generate_spec (Z.to_nat pl) c l d) as (ts & EG & ES & Hb & Hstop);
    auto; try lia.
  exists (Join ts delim). split; [assumption|]. unfold token_count. rewrite ES.
  rewrite Z2Nat.id in Hb by lia.
  split; [assumption|]. split; [lia | assumption].
Qed.

Lemma Generate_bounds_witness :
  (1 <= 2 < 2 ^ 63)%Z /\ (20 < 2 ^ 63)%Z
  /\ fits_int32 (NewChain 2) (content (Buffer test_data))
  /\ exists c, Build (NewChain 2) (Buffer test_data) = Ok c
       /\ sp c <> []
       /\ exists phrase, Generate c 20 (fun k => k * 7 + 3) = Ok phrase
            /\ (2 <= token_count phrase <= Z.max 2 20)%Z.
Proof.
  assert (Hpl : (1 <= 2 < 2 ^ 63)%Z) by lia.
  assert (Hl : (20 < 2 ^ 63)%Z) by lia.
  assert (Hf : fits_int32 (NewChain 2) (content (Buffer test_data))).
  { split; apply Z.leb_le; vm_compute; reflexivity. }
  split; [exact Hpl|]. split; [exact Hl|]. split; [exact Hf|].
  destruct (Build (NewChain 2) (Buffer test_data)) as [c| |] eqn:E;
    [|vm_compute in E; discriminate E|vm_compute in E; discriminate E].
  assert (Hsp : sp c <> []).
  { vm_compute in E. injection E as <-. discriminate. }
  exists c. split; [reflexivity|]. split; [exact Hsp|].
  destruct (Generate_bounds 2 20 (Buffer test_data) c (fun k => k * 7 + 3)
              Hpl Hl Hf E Hsp) as (phrase & HG & Hb & _).
  exists phrase. split; assumption.
Defined.

(** * Further properties of the index *)

Lemma index_eq (i1 i2 : index) : tokens i1 = tokens i2 -> i1 = i2.
Proof. destruct i1, i2. simpl. now intros ->. Qed.

(** Two strictly sorted slices with the same elements are the same slice. *)
Lemma sorted_ext (l1 l2 : list string) :
  sorted l1 -> sorted l2 -> (forall x, x ∈ l1 <-> x ∈ l2) -> l1 = l2.
Proof.
  intros H1 H2 Hel.
  assert (Hanti : AntiSymm eq str_lt).
  { intros x y Hxy Hyx. exfalso. exact (str_lt_asym _ _ Hxy Hyx). }
  apply (StronglySorted_unique str_lt); auto.
  apply NoDup_Permutation; auto using sorted_NoDup.
Qed.

Lemma Add_present (idx : index) (t : string) :
  sorted (tokens idx) -> t ∈ tokens idx -> Add idx t = idx.
Proof.
  intros Hs Hin. apply list_elem_of_lookup in Hin as [p Hp]. unfold Add.
  rewrite (SearchStrings_present _ _ _ Hs Hp).
  apply lookup_lt_Some in Hp as Hlt.
  destruct (decide (p = length (tokens idx))); [lia|].
  rewrite Hp. simpl. destruct (decide (t ≠ t)); [congruence | reflexivity].
Qed.

(** X1 - [Add] of a token that the sorted index holds changes nothing, so
    adding a token twice is the same as adding it once. *)
Theorem Add_idempotent (idx : index) (t : string) :
  sorted (tokens idx) ->
  Add (Add idx t) t = Add idx t
  /\ (t ∈ tokens idx -> Add idx t = idx).
Proof.
  intros Hs. split; [|now apply Add_present].
  apply Add_present; [now apply Add_sorted|]. apply Add_elem_of. now left.
Qed.

Lemma Add_idempotent_witness :
  sorted ["abc"; "foo"]
  /\ "foo" ∈ ["abc"; "foo"]
  /\ Add (Add (mk_index ["abc"; "foo"]) "foo") "foo" = Add (mk_index ["abc"; "foo"]) "foo"
  /\ Add (mk_index ["abc"; "foo"]) "foo" = mk_index ["abc"; "foo"].
Proof.
  assert (Hs : sorted ["abc"; "foo"]) by (repeat constructor).
  assert (Hin : "foo" ∈ ["abc"; "foo"]) by (apply list_elem_of_further, list_elem_of_here).
  destruct (Add_idempotent (mk_index ["abc"; "foo"]) "foo" Hs) as [H1 H2].
  split; [exact Hs|]. split; [exact Hin|]. split; [exact H1 | exact (H2 Hin)].
Defined.

Lemma Adds_ext (idx : index) (ts us : list string) :
  sorted (tokens idx) ->
  (forall t, t ∈ ts <-> t ∈ us) -> Adds idx ts = Adds idx us.
Proof.
  intros Hs Hel. apply index_eq. apply sorted_ext; try now apply Adds_sorted.
  intros x. rewrite !Adds_elem_of, Hel. reflexivity.
Qed.

(** X2 - The contents of the index depend only on the set of tokens added:
    two runs of [Add] calls on the same sorted index that add the same
    tokens, in any order and with any repetitions, leave the same index. *)
Theorem Adds_order_irrelevant (idx : index) (ts us : list string) :
  sorted (tokens idx) ->
  (forall t, t ∈ ts <-> t ∈ us) ->
  Adds idx ts = Adds idx us.
Proof. apply Adds_ext. Qed.

Lemma Adds_order_irrelevant_witness :
  sorted (tokens empty_index)
  /\ (forall t, t ∈ ["b"; "a"; "b"] <-> t ∈ ["a"; "b"])
  /\ Adds empty_index ["b"; "a"; "b"] = Adds empty_index ["a"; "b"].
Proof.
  assert (Hs : sorted (tokens empty_index)) by constructor.
  assert (Hel : forall t, t ∈ ["b"; "a"; "b"] <-> t ∈ ["a"; "b"]).
  { intros t. rewrite !elem_of_cons, elem_of_nil. tauto. }
  split; [exact Hs|]. split; [exact Hel|].
  exact (Adds_order_irrelevant empty_index ["b"; "a"; "b"] ["a"; "b"] Hs Hel).
Defined.

(** X3 - Whatever the index holds, sorted or not, [Add] either leaves it as
    it is or puts the token in at one place: no token is lost, none is
    moved, and the length grows by one at most. *)
Theorem Add_inserts_in_place (idx : index) (x : string) :
  (tokens (Add idx x) = tokens idx /\ x ∈ tokens idx)
  \/ exists i, i <= length (tokens idx)
               /\ tokens (Add idx x)
                  = take i (tokens idx) ++ x :: drop i (tokens idx).
Proof.
  unfold Add. set (i := SearchStrings (tokens idx) x).
  assert (Hi : i <= length (tokens idx)).
  { pose proof (Search_loop_range
       (fun i => negb (String.ltb (default EmptyString (tokens idx !! i)) x))
       0 (length (tokens idx)) ltac:(lia)) as H.
    unfold i, SearchStrings, Search. lia. }
  destruct (decide (i = length (tokens idx))) as [E|E].
  - right. exists i. split; [assumption|]. simpl.
    now rewrite E, firstn_all, drop_all.
  - destruct (lookup_lt_is_Some_2 (tokens idx) i) as [z Hz]; [lia|].
    rewrite Hz. simpl. destruct (decide (z ≠ x)) as [Hne|Heq].
    + right. exists i. split; [assumption|]. simpl. apply make_room_insert. lia.
    + left. split; [reflexivity|]. apply list_elem_of_lookup. exists i.
      destruct (decide (z = x)); [subst; assumption | tauto].
Qed.

(** X4 - [Find] is sound on every index, sorted or not: it returns -1, or
    (the [int32] of) a position that holds the token. *)
Theorem Find_sound (idx : index) (t : string) :
  Find idx t = (-1)%Z
  \/ exists i, tokens idx !! i = Some t /\ Find idx t = int32 (Z.of_nat i).
Proof.
  unfold Find. set (i := SearchStrings (tokens idx) t).
  destruct (bool_decide (i = length (tokens idx))) eqn:E1; [left; reflexivity|].
  destruct (bool_decide (default EmptyString (tokens idx !! i) ≠ t)) eqn:E2;
    [left; reflexivity|].
  right. exists i. split; [|reflexivity].
  apply bool_decide_eq_false in E1, E2.
  assert (Hi : i <= length (tokens idx)).
  { pose proof (Search_loop_range
       (fun i => negb (String.ltb (default EmptyString (tokens idx !! i)) t))
       0 (length (tokens idx)) ltac:(lia)) as H.
    unfold i, SearchStrings, Search. lia. }
  destruct (lookup_lt_is_Some_2 (tokens idx) i) as [z Hz]; [lia|].
  rewrite Hz in *. simpl in E2.
  destruct (decide (z = t)); [subst; reflexivity | tauto].
Qed.

(** X5 - On a sorted index that fits, the positions [Find] returns are in
    the order of the tokens: a token is smaller in the byte-wise order
    exactly when its position is smaller. *)
Theorem Find_order (idx : index) (s t : string) :
  sorted (tokens idx) -> (len (tokens idx) <= 2 ^ 31)%Z ->
  s ∈ tokens idx -> t ∈ tokens idx ->
  (Find idx s < Find idx t)%Z <-> str_lt s t.
Proof.
  intros Hs Hlen Hin1 Hin2.
  destruct (Find_valid idx s Hs Hlen Hin1) as (p & Hp & ->).
  destruct (Find_valid idx t Hs Hlen Hin2) as (q & Hq & ->).
  split.
  - intros Hlt. apply (sorted_lookup_lt (tokens idx) p q); auto. lia.
  - intros Hlt. destruct (Nat.lt_trichotomy p q) as [H|[H|H]]; [lia| |].
    + subst. rewrite Hp in Hq. injection Hq as ->.
      exfalso. exact (str_lt_irrefl _ Hlt).
    + exfalso. apply (str_lt_asym _ _ Hlt).
      apply (sorted_lookup_lt (tokens idx) q p); auto.
Qed.

Lemma Find_order_witness :
  sorted ["abc"; "boo"; "foo"]
  /\ (len ["abc"; "boo"; "foo"] <= 2 ^ 31)%Z
  /\ "boo" ∈ ["abc"; "boo"; "foo"] /\ "foo" ∈ ["abc"; "boo"; "foo"]
  /\ ((Find (mk_index ["abc"; "boo"; "foo"]) "boo"
       < Find (mk_index ["abc"; "boo"; "foo"]) "foo")%Z <-> str_lt "boo" "foo").
Proof.
  assert (Hs : sorted ["abc"; "boo"; "foo"]) by (repeat constructor).
  assert (Hl : (len ["abc"; "boo"; "foo"] <= 2 ^ 31)%Z) by (unfold len; simpl; lia).
  assert (H1 : "boo" ∈ ["abc"; "boo"; "foo"])
    by (apply list_elem_of_further, list_elem_of_here).
  assert (H2 : "foo" ∈ ["abc"; "boo"; "foo"])
    by (apply list_elem_of_further, list_elem_of_further, list_elem_of_here).
  split; [exact Hs|]. split; [exact Hl|]. split; [exact H1|]. split; [exact H2|].
  exact (Find_order (mk_index ["abc"; "boo"; "foo"]) "boo" "foo" Hs Hl H1 H2).
Defined.

(** X6 - Positions are not stable: adding a new token to a sorted index
    moves the position of every larger token up by one and leaves the
    positions of the smaller tokens as they are. *)
Theorem Add_shifts_positions (idx : index) (x t : string) :
  sorted (tokens idx) -> (len (tokens idx) < 2 ^ 31)%Z ->
  t ∈ tokens idx -> x ∉ tokens idx ->
  Find (Add idx x) t = (Find idx t + (if String.ltb x t then 1 else 0))%Z.
Proof.
  intros Hs Hlen Hin Hnin.
  destruct (Find_valid idx t Hs ltac:(lia) Hin) as (p & Hp & ->).
  apply lookup_lt_Some in Hp as Hplt.
  destruct (SearchStrings_spec (tokens idx) x Hs) as (Hr & Hlo & Hhi).
  pose proof (Add_sorted idx x Hs) as Hs'.
  pose proof (Add_tokens idx x Hs) as Ht.
  destruct (decide (x ∈ tokens idx)); [tauto|].
  set (r := SearchStrings (tokens idx) x) in *.
  assert (Hx : x <> t) by (intros ->; tauto).
  destruct (String.ltb x t) eqn:Elt.
  - assert (Hrp : r <= p).
    { destruct (le_lt_dec r p) as [|Hpr]; [assumption|]. exfalso.
      apply (str_lt_asym x t Elt). eauto. }
    assert (Hnew : tokens (Add idx x) !! (S p) = Some t).
    { rewrite Ht. rewrite lookup_app_r by (rewrite length_take; lia).
      rewrite length_take, Nat.min_l by lia.
      replace (S p - r) with (S (p - r)) by lia. simpl.
      rewrite lookup_drop. rewrite <- Hp. f_equal. lia. }
    rewrite (Find_present _ _ _ Hs' Hnew). unfold len in Hlen.
    rewrite int32_small by lia. lia.
  - assert (Hpr : p < r).
    { destruct (le_lt_dec r p) as [Hrp|]; [|assumption]. exfalso.
      apply (Hhi p t Hp Hrp). apply str_lt_total; [|congruence].
      unfold str_lt. now rewrite Elt. }
    assert (Hnew : tokens (Add idx x) !! p = Some t).
    { rewrite Ht. rewrite lookup_app_l by (rewrite length_take; lia).
      now rewrite lookup_take_lt by lia. }
    rewrite (Find_present _ _ _ Hs' Hnew). unfold len in Hlen.
    rewrite int32_small by lia. lia.
Qed.

Lemma Add_shifts_positions_witness :
  sorted ["abc"; "foo"] /\ (len ["abc"; "foo"] < 2 ^ 31)%Z
  /\ "foo" ∈ ["abc"; "foo"] /\ ("boo" ∉ ["abc"; "foo"])
  /\ Find (Add (mk_index ["abc"; "foo"]) "boo") "foo"
     = (Find (mk_index ["abc"; "foo"]) "foo" + (if String.ltb "boo" "foo" then 1 else 0))%Z.
Proof.
  assert (Hs : sorted ["abc"; "foo"]) by (repeat constructor).
  assert (Hl : (len ["abc"; "foo"] < 2 ^ 31)%Z) by (unfold len; simpl; lia).
  assert (H1 : "foo" ∈ ["abc"; "foo"]) by (apply list_elem_of_further, list_elem_of_here).
  assert (H2 : "boo" ∉ ["abc"; "foo"]).
  { rewrite !not_elem_of_cons. repeat split; try discriminate. apply not_elem_of_nil. }
  split; [exact Hs|]. split; [exact Hl|]. split; [exact H1|]. split; [exact H2|].
  exact (Add_shifts_positions (mk_index ["abc"; "foo"]) "boo" "foo" Hs Hl H1 H2).
Defined.

Lemma Get_Find_present (idx : index) (t : string) :
  sorted (tokens idx) -> (len (tokens idx) <= 2 ^ 31)%Z -> t ∈ tokens idx ->
  Get idx (Find idx t) = Ok t.
Proof.
  intros Hs Hlen Hin. destruct (Find_valid idx t Hs Hlen Hin) as (p & Hp & ->).
  unfold Get. now apply at_index_lookup.
Qed.

(** X7 - Decoding what [Find] returns: on a sorted index that fits, [Get]
    of the position of a token gives the token back; for a token the index
    does not hold, [Find] is -1 and [Get] of it panics with an index out of
    range. *)
Theorem Get_Find_roundtrip (idx : index) (t : string) :
  sorted (tokens idx) -> (len (tokens idx) <= 2 ^ 31)%Z ->
  (t ∈ tokens idx -> Get idx (Find idx t) = Ok t)
  /\ (t ∉ tokens idx -> Get idx (Find idx t) = Panic index_out_of_range).
Proof.
  intros Hs Hlen. split.
  - now apply Get_Find_present.
  - intros Hnin. now rewrite (Find_absent idx t Hnin).
Qed.

Lemma Get_Find_roundtrip_witness :
  sorted ["abc"; "foo"] /\ (len ["abc"; "foo"] <= 2 ^ 31)%Z
  /\ "foo" ∈ ["abc"; "foo"] /\ ("fo" ∉ ["abc"; "foo"])
  /\ Get (mk_index ["abc"; "foo"]) (Find (mk_index ["abc"; "foo"]) "foo") = Ok "foo"
  /\ Get (mk_index ["abc"; "foo"]) (Find (mk_index ["abc"; "foo"]) "fo")
     = Panic index_out_of_range.
Proof.
  assert (Hs : sorted ["abc"; "foo"]) by (repeat constructor).
  assert (Hl : (len ["abc"; "foo"] <= 2 ^ 31)%Z) by (unfold len; simpl; lia).
  assert (H1 : "foo" ∈ ["abc"; "foo"]) by (apply list_elem_of_further, list_elem_of_here).
  assert (H2 : "fo" ∉ ["abc"; "foo"]).
  { rewrite !not_elem_of_cons. repeat split; try discriminate. apply not_elem_of_nil. }
  destruct (Get_Find_roundtrip (mk_index ["abc"; "foo"]) "foo" Hs Hl) as [Ha _].
  destruct (Get_Find_roundtrip (mk_index ["abc"; "foo"]) "fo" Hs Hl) as [_ Hb].
  split; [exact Hs|]. split; [exact Hl|]. split; [exact H1|]. split; [exact H2|].
  split; [exact (Ha H1) | exact (Hb H2)].
Defined.

(** * Further properties of Build *)

(** X8 - A chain with a negative prefix length cannot be built: whatever the
    chain holds and whatever the input is (even empty), [Build] on a reader
    that does not fail panics in the second pass, where
    [tokens[:c.prefixLength]] is out of range. *)
Theorem Build_negative_prefixLength_panics (c : Chain) (r : Reader) :
  (prefixLength c < 0)%Z -> failure r = None ->
  Build c r = Panic slice_out_of_range.
Proof.
  intros Hneg Fr. unfold Build, Build_passes.
  rewrite buildTokenIndex_spec, Fr. cbn [bind].
  unfold buildPrefixIndex, processStream. rewrite processStream_loop_lines.
  cbn [failure content Buffer].
  rewrite foldM_processStartingPrefixes_negative; [reflexivity | assumption |].
  apply corpus_lines_not_nil.
Qed.

Lemma Build_negative_prefixLength_panics_witness :
  (prefixLength (NewChain (-1)) < 0)%Z /\ failure (Buffer "") = None
  /\ Build (NewChain (-1)) (Buffer "") = Panic slice_out_of_range.
Proof.
  assert (H : (prefixLength (NewChain (-1)) < 0)%Z) by (simpl; lia).
  split; [exact H|]. split; [reflexivity|].
  exact (Build_negative_prefixLength_panics (NewChain (-1)) (Buffer "") H eq_refl).
Defined.

(** X9 - A reader that fails makes [Build] return its error: the first pass
    never panics, whatever the bytes read before the failure and whatever
    the chain and its prefix length are, and the later passes do not run. *)
Theorem Build_returns_read_error (c : Chain) (r : Reader) (e : string) :
  failure r = Some e -> Build c r = Err (read_error e).
Proof.
  intros H. unfold Build, Build_passes. now rewrite buildTokenIndex_spec, H.
Qed.

Lemma Build_returns_read_error_witness :
  failure (mk_Reader "a b
c" (Some "timeout")) = Some "timeout"
  /\ Build (NewChain (-3)) (mk_Reader "a b
c" (Some "timeout")) = Err (read_error "timeout").
Proof.
  split; [reflexivity|].
  exact (Build_returns_read_error (NewChain (-3)) (mk_Reader "a b
c" (Some "timeout")) "timeout" eq_refl).
Defined.

Lemma built_prefixLength (pl : Z) (c : Chain) : built pl c -> prefixLength c = pl.
Proof.
  induction 1 as [|c c' r Hb IH HB]; [reflexivity|].
  apply Build_extends in HB as (Hp & _). congruence.
Qed.

Lemma built_sorted (pl : Z) (c : Chain) :
  built pl c ->
  sorted (tokens (tokensIdx c)) /\ sorted (tokens (startingPrefixIdx c)).
Proof.
  induction 1 as [|c c' r Hb [IH1 IH2] HB]; [split; constructor|].
  apply Build_indexes in HB as [-> ->]. split; now apply Adds_sorted.
Qed.

(** X10 - The two indexes stay strictly sorted, hence without duplicates,
    and the prefix length stays what [NewChain] was given, through any
    number of [Build] calls on a chain. *)
Theorem built_indexes_sorted (pl : Z) (c : Chain) :
  built pl c ->
  prefixLength c = pl
  /\ sorted (tokens (tokensIdx c)) /\ NoDup (tokens (tokensIdx c))
  /\ sorted (tokens (startingPrefixIdx c)) /\ NoDup (tokens (startingPrefixIdx c)).
Proof.
  intros Hb. destruct (built_sorted pl c Hb) as [H1 H2].
  split; [now apply built_prefixLength|].
  repeat split; auto using sorted_NoDup.
Qed.

Lemma built_indexes_sorted_witness :
  exists c c', Build (NewChain 1) (Buffer "b c") = Ok c
    /\ Build c (Buffer "a b") = Ok c'
    /\ built 1 c'
    /\ prefixLength c' = 1%Z
    /\ sorted (tokens (tokensIdx c'))
    /\ sorted (tokens (startingPrefixIdx c')).
Proof.
  destruct (Build (NewChain 1) (Buffer "b c")) as [c| |] eqn:E1;
    [|vm_compute in E1; discriminate E1|vm_compute in E1; discriminate E1].
  destruct (Build c (Buffer "a b")) as [c'| |] eqn:E2.
  2:{ exfalso. vm_compute in E1. injection E1 as <-. vm_compute in E2. discriminate E2. }
  2:{ exfalso. vm_compute in E1. injection E1 as <-. vm_compute in E2. discriminate E2. }
  assert (Hb : built 1 c').
  { exact (built_Build 1 c c' _ (built_Build 1 _ c _ (built_NewChain 1) E1) E2). }
  destruct (built_indexes_sorted 1 c' Hb) as (Hp & Hs1 & _ & Hs2 & _).
  exists c, c'. repeat split; assumption.
Defined.

Lemma Split_snoc (s : string) (d : ascii) :
  Split (s +:+ String d EmptyString) d = Split s d ++ [EmptyString].
Proof.
  induction s as [|c s IH]; simpl.
  - now rewrite Ascii.eqb_refl.
  - destruct (Ascii.eqb c d); [now rewrite IH|]. rewrite IH.
    pose proof (Split_not_nil s d). destruct (Split s d); [congruence | reflexivity].
Qed.

(** X11 - The empty token.  When the input is empty or ends with a line
    feed, the empty line that [processStream] passes on last gives the
    empty string as a token, and a returning [Build] has it in the token
    index. *)
Theorem Build_registers_empty_token (c c' : Chain) (r : Reader) :
  Build c r = Ok c' ->
  (content r = EmptyString
   \/ exists data, content r = data +:+ String newline EmptyString) ->
  EmptyString ∈ tokens (tokensIdx c').
Proof.
  intros HB Hend. apply Build_indexes in HB as [-> _].
  apply Adds_elem_of. left. unfold corpus_tokens, corpus_lines, lines.
  apply list_elem_of_In, in_concat. exists [EmptyString].
  split; [|now left]. apply in_map_iff. exists EmptyString.
  split; [reflexivity|]. destruct Hend as [->|[data ->]].
  - now left.
  - rewrite Split_snoc. apply in_or_app. right. now left.
Qed.

Lemma Build_registers_empty_token_witness :
  exists c', Build (NewChain 2) (Buffer ("a b" +:+ String newline EmptyString)) = Ok c'
    /\ EmptyString ∈ tokens (tokensIdx c').
Proof.
  destruct (Build (NewChain 2) (Buffer ("a b" +:+ String newline EmptyString)))
    as [c'| |] eqn:E;
    [|vm_compute in E; discriminate E|vm_compute in E; discriminate E].
  exists c'. split; [reflexivity|].
  apply (Build_registers_empty_token (NewChain 2) c' _ E).
  right. exists "a b". reflexivity.
Defined.

(** X12 - The token index a [Build] leaves depends only on the set of the
    tokens of the corpus, not on their order, their lines or their
    repetitions: two corpora with the same tokens, built on the same chain,
    give the same token index. *)
Theorem Build_token_index_determined (c c1 c2 : Chain) (r1 r2 : Reader) :
  sorted (tokens (tokensIdx c)) ->
  Build c r1 = Ok c1 -> Build c r2 = Ok c2 ->
  (forall t, t ∈ corpus_tokens (content r1) <-> t ∈ corpus_tokens (content r2)) ->
  tokensIdx c1 = tokensIdx c2.
Proof.
  intros Hs H1 H2 Hel.
  apply Build_indexes in H1 as [-> _]. apply Build_indexes in H2 as [-> _].
  now apply Adds_ext.
Qed.

Lemma Build_token_index_determined_witness :
  exists c1 c2,
    Build (NewChain 1) (Buffer "a b
c a") = Ok c1
    /\ Build (NewChain 1) (Buffer "c
b a") = Ok c2
    /\ tokensIdx c1 = tokensIdx c2.
Proof.
  destruct (Build (NewChain 1) (Buffer "a b
c a")) as [c1| |] eqn:E1;
    [|vm_compute in E1; discriminate E1|vm_compute in E1; discriminate E1].
  destruct (Build (NewChain 1) (Buffer "c
b a")) as [c2| |] eqn:E2;
    [|vm_compute in E2; discriminate E2|vm_compute in E2; discriminate E2].
  exists c1, c2. split; [reflexivity|]. split; [reflexivity|].
  apply (Build_token_index_determined (NewChain 1) c1 c2 _ _
           ltac:(constructor) E1 E2).
  intros t.
  change (corpus_tokens (content (Buffer "a b
c a"))) with ["a"; "b"; "c"; "a"].
  change (corpus_tokens (content (Buffer "c
b a"))) with ["c"; "b"; "a"].
  rewrite !elem_of_cons, elem_of_nil. tauto.
Defined.

(** * Further properties of Generate *)

Lemma Generate_not_Err (c : Chain) (l : Z) (d : rand) (e : error) :
  (forall s, s ∈ tokens (startingPrefixIdx c) ->
             (prefixLength c <= len (Split s delim))%Z) ->
  Generate c l d <> Err e.
Proof.
  intros Hs. unfold Generate.
  destruct (Intn _ d) as [[i d']| |] eqn:Ei; cbn [bind];
    [|now apply Intn_not_Err in Ei|discriminate].
  destruct (at_index (sp c) i) as [spi| |] eqn:Ea; cbn [bind];
    [|now apply at_index_not_Err in Ea|discriminate].
  destruct (Get (startingPrefixIdx c) spi) as [prefix| |] eqn:Eg; cbn [bind];
    [|now apply at_index_not_Err in Eg|discriminate].
  apply at_index_Ok in Eg as [Hin _]. specialize (Hs prefix Hin).
  replace (len (Split prefix delim) <? prefixLength c)%Z with false
    by (symmetry; apply Z.ltb_ge; lia).
  destruct (Generate_loop c l _ d') as [sentence| |] eqn:El; cbn [bind];
    [discriminate | now apply Generate_loop_not_Err in El | discriminate].
Qed.

Lemma built_prefixes_ok (pl : Z) (c : Chain) :
  (1 <= pl)%Z -> built pl c -> prefixes_ok (Z.to_nat pl) c.
Proof.
  intros Hpl. induction 1 as [|c c' r Hb IH HB].
  - rewrite <- (Z2Nat.id pl) at 2 by lia. apply NewChain_prefixes_ok.
  - apply (Build_prefixes_ok _ c c' r); auto. lia.
Qed.

(** X13 - The [panic(err)] of [MustGenerate] is never reached: on every
    chain a program can have (a new chain of any prefix length, built any
    number of times) [Generate] returns no error, so [MustGenerate] does
    what [Generate] does. *)
Theorem MustGenerate_is_Generate (pl : Z) (c : Chain) (l : Z) (d : rand) :
  built pl c ->
  (forall e, Generate c l d <> Err e)
  /\ MustGenerate c l d = Generate c l d.
Proof.
  intros Hb.
  assert (HG : forall e, Generate c l d <> Err e).
  { intros e. apply Generate_not_Err. intros s Hin.
    rewrite (built_prefixLength pl c Hb).
    destruct (Z_lt_ge_dec pl 1) as [Hsmall|Hbig].
    - unfold len. rewrite Split_length. lia.
    - destruct (built_prefixes_ok pl c ltac:(lia) Hb) as (_ & Hs & _).
      unfold len. rewrite (Hs s Hin). lia. }
  split; [assumption|]. unfold MustGenerate.
  destruct (Generate c l d) as [s|e|v] eqn:E; try reflexivity.
  exfalso. exact (HG e eq_refl).
Qed.

Lemma MustGenerate_is_Generate_witness :
  exists c, Build (NewChain 0) (Buffer "a b") = Ok c
    /\ built 0 c
    /\ MustGenerate c 3 (fun k => k) = Generate c 3 (fun k => k).
Proof.
  destruct (Build (NewChain 0) (Buffer "a b")) as [c| |] eqn:E;
    [|vm_compute in E; discriminate E|vm_compute in E; discriminate E].
  assert (Hb : built 0 c) by exact (built_Build 0 _ c _ (built_NewChain 0) E).
  exists c. split; [reflexivity|]. split; [exact Hb|].
  exact (proj2 (MustGenerate_is_Generate 0 c 3 (fun k => k) Hb)).
Defined.

(** ** Decoding a built chain *)

(** A new chain after [Build], with its positions in terms of the corpus. *)
Lemma Build_NewChain_facts (pl : Z) (r : Reader) (c : Chain) :
  (0 <= pl < 2 ^ 63)%Z ->
  fits_int32 (NewChain pl) (content r) ->
  Build (NewChain pl) r = Ok c ->
  sorted (tokens (tokensIdx c)) /\ (len (tokens (tokensIdx c)) <= 2 ^ 31)%Z
  /\ sorted (tokens (startingPrefixIdx c))
  /\ (len (tokens (startingPrefixIdx c)) <= 2 ^ 31)%Z
  /\ sp c = map (Find (startingPrefixIdx c))
                (phrase_starts (Z.to_nat pl) (corpus_lines (content r)))
  /\ (forall s, s ∈ phrase_starts (Z.to_nat pl) (corpus_lines (content r)) ->
                s ∈ tokens (startingPrefixIdx c))
  /\ (forall p, chain c !!! p
                = map (Find (tokensIdx c))
                      (map snd (filter (fun w => w.1 = p)
                                       (corpus_windows (Z.to_nat pl) (content r)))))
  /\ (forall w, w ∈ corpus_windows (Z.to_nat pl) (content r) ->
                w.2 ∈ tokens (tokensIdx c)).
Proof.
  intros Hpl Hfit HB. pose proof Hfit as [Hfit1 Hfit2].
  apply (Build_NewChain pl r c Hpl Hfit) in HB. subst c.
  unfold Build_result. cbn [chain tokensIdx sp startingPrefixIdx NewChain app].
  set (n := Z.to_nat pl). unfold corpus_windows.
  set (ls := corpus_lines (content r)) in *.
  set (idx := Adds empty_index (concat ls)).
  set (sidx := Adds empty_index (starting_prefixes n ls)).
  split; [apply Adds_sorted; constructor|]. split.
  { pose proof (Adds_length (concat ls) empty_index ltac:(constructor)) as H.
    fold idx in H. unfold corpus_tokens in Hfit1. fold ls in Hfit1.
    unfold len in *. simpl in *. lia. }
  split; [apply Adds_sorted; constructor|]. split.
  { pose proof (Adds_length (starting_prefixes n ls) empty_index ltac:(constructor)) as H.
    fold sidx in H.
    assert (length (starting_prefixes n ls) <= length ls).
    { unfold starting_prefixes. rewrite length_map. apply length_filter. }
    unfold len in *. simpl in *. lia. }
  split; [reflexivity|]. split.
  { intros s Hs. unfold sidx. apply Adds_elem_of. left.
    unfold phrase_starts in Hs.
    apply list_elem_of_In, in_map_iff in Hs as (ts & <- & Hts).
    apply list_elem_of_In, list_elem_of_filter in Hts as [Hlt Hts].
    unfold starting_prefixes. apply list_elem_of_In, in_map_iff.
    exists ts. split; [reflexivity|]. apply list_elem_of_In.
    apply list_elem_of_filter. split; [lia | assumption]. }
  split.
  { intros p. rewrite fold_record_lookup, lookup_total_empty.
    change (@inhabitant (list Z) _) with (@nil Z). reflexivity. }
  intros w Hw. apply list_elem_of_In, in_concat in Hw as (ws & Hws & Hw).
  apply in_map_iff in Hws as (ts & <- & Hts).
  apply list_elem_of_In, windows_suffix_elem in Hw.
  unfold idx. apply Adds_elem_of. left.
  apply list_elem_of_In, in_concat. exists ts. split; [assumption|].
  now apply list_elem_of_In.
Qed.

Lemma map_Get_Find (idx : index) (l : list string) :
  sorted (tokens idx) -> (len (tokens idx) <= 2 ^ 31)%Z ->
  (forall s, s ∈ l -> s ∈ tokens idx) ->
  map (Get idx) (map (Find idx) l) = map Ok l.
Proof.
  intros Hs Hlen Hin. rewrite map_map. apply map_ext_in. intros s Hs'.
  apply Get_Find_present; auto. apply Hin. now apply list_elem_of_In.
Qed.

(** X14 - The starting list decodes to the corpus: after [Build] of a new
    chain, [Get] of the positions in [sp], in order, gives the starting
    prefix of every line that has more than [prefixLength] tokens, in the
    order of the lines. *)
Theorem Build_sp_decodes (pl : Z) (r : Reader) (c : Chain) :
  (0 <= pl < 2 ^ 63)%Z ->
  fits_int32 (NewChain pl) (content r) ->
  Build (NewChain pl) r = Ok c ->
  map (Get (startingPrefixIdx c)) (sp c)
  = map Ok (phrase_starts (Z.to_nat pl) (corpus_lines (content r))).
Proof.
  intros Hpl Hfit HB.
  destruct (Build_NewChain_facts pl r c Hpl Hfit HB)
    as (_ & _ & Hs & Hl & -> & Hin & _).
  now apply map_Get_Find.
Qed.

Lemma Build_sp_decodes_witness :
  (0 <= 2 < 2 ^ 63)%Z
  /\ fits_int32 (NewChain 2) (content (Buffer test_data))
  /\ exists c, Build (NewChain 2) (Buffer test_data) = Ok c
       /\ map (Get (startingPrefixIdx c)) (sp c)
          = [Ok "the quick"; Ok "foo bar"; Ok "foo bar"].
Proof.
  assert (Hr : (0 <= 2 < 2 ^ 63)%Z) by lia.
  assert (Hf : fits_int32 (NewChain 2) (content (Buffer test_data))).
  { split; apply Z.leb_le; vm_compute; reflexivity. }
  split; [exact Hr|]. split; [exact Hf|].
  destruct (Build (NewChain 2) (Buffer test_data)) as [c| |] eqn:E;
    [|vm_compute in E; discriminate E|vm_compute in E; discriminate E].
  exists c. split; [reflexivity|].
  rewrite (Build_sp_decodes 2 (Buffer test_data) c Hr Hf E).
  vm_compute. reflexivity.
Defined.

(** X15 - The chain map decodes to the corpus: after [Build] of a new chain,
    [Get] of the positions in the entry of a prefix [p], in order, gives the
    tokens that follow [p] in the sliding windows of the corpus, in the
    order of the corpus; the entry of a string that is no prefix of the
    corpus is empty. *)
Theorem Build_chain_decodes (pl : Z) (r : Reader) (c : Chain) (p : string) :
  (0 <= pl < 2 ^ 63)%Z ->
  fits_int32 (NewChain pl) (content r) ->
  Build (NewChain pl) r = Ok c ->
  map (Get (tokensIdx c)) (chain c !!! p)
  = map Ok (map snd (filter (fun w => w.1 = p)
                            (corpus_windows (Z.to_nat pl) (content r)))).
Proof.
  intros Hpl Hfit HB.
  destruct (Build_NewChain_facts pl r c Hpl Hfit HB)
    as (Hs & Hl & _ & _ & _ & _ & Hch & Hin).
  rewrite Hch. apply map_Get_Find; auto.
  intros s Hs'. apply list_elem_of_In, in_map_iff in Hs' as (w & <- & Hw).
  apply Hin. apply list_elem_of_In, list_elem_of_filter in Hw. tauto.
Qed.

Lemma Build_chain_decodes_witness :
  (0 <= 2 < 2 ^ 63)%Z
  /\ fits_int32 (NewChain 2) (content (Buffer test_data))
  /\ exists c, Build (NewChain 2) (Buffer test_data) = Ok c
       /\ map (Get (tokensIdx c)) (chain c !!! "brown fox,")
          = [Ok "jumps"; Ok "hello."].
Proof.
  assert (Hr : (0 <= 2 < 2 ^ 63)%Z) by lia.
  assert (Hf : fits_int32 (NewChain 2) (content (Buffer test_data))).
  { split; apply Z.leb_le; vm_compute; reflexivity. }
  split; [exact Hr|]. split; [exact Hf|].
  destruct (Build (NewChain 2) (Buffer test_data)) as [c| |] eqn:E;
    [|vm_compute in E; discriminate E|vm_compute in E; discriminate E].
  exists c. split; [reflexivity|].
  rewrite (Build_chain_decodes 2 (Buffer test_data) c "brown fox," Hr Hf E).
  vm_compute. reflexivity.
Defined.

(** ** A generated phrase follows the corpus *)

Lemma Build_chain_sound (pl : Z) (r : Reader) (c : Chain) :
  (0 <= pl < 2 ^ 63)%Z ->
  fits_int32 (NewChain pl) (content r) ->
  Build (NewChain pl) r = Ok c ->
  chain_sound (corpus_windows (Z.to_nat pl) (content r)) c.
Proof.
  intros Hpl Hfit HB.
  destruct (Build_NewChain_facts pl r c Hpl Hfit HB)
    as (Hs & Hl & _ & _ & _ & _ & Hch & Hin).
  intros p x Hx. rewrite Hch in Hx.
  apply list_elem_of_In, in_map_iff in Hx as (s & <- & Hs').
  apply in_map_iff in Hs' as ([p' s'] & Es & Hw). simpl in Es. subst s'.
  apply list_elem_of_In, list_elem_of_filter in Hw as [Ep Hw]. simpl in Ep. subst p'.
  exists s. split; [|assumption].
  apply Get_Find_present; auto. exact (Hin _ Hw).
Qed.

(** The windows of a sentence after one more token. *)
Lemma windows_snoc (n : nat) (ts : list string) (t : string) :
  n <= length ts ->
  windows n (ts ++ [t])
  = windows n ts ++ [(Join (drop (length ts - n) ts) delim, t)].
Proof.
  induction ts as [|a ts IH]; intros Hn.
  - simpl in Hn. assert (n = 0) by lia. subst. reflexivity.
  - destruct (decide (n = length (a :: ts))) as [->|Hne].
    + rewrite (windows_short _ (a :: ts)) by lia.
      rewrite Nat.sub_diag, drop_0. cbn [app].
      rewrite windows_unfold.
      rewrite (list_lookup_middle (a :: ts) [] t) by reflexivity.
      change (a :: ts ++ [t]) with ((a :: ts) ++ [t]).
      rewrite take_app_length. f_equal.
      apply windows_short. rewrite length_drop, length_app. simpl. lia.
    + simpl in Hn. assert (Hlt : n < length (a :: ts)) by (simpl in *; lia).
      destruct (lookup_lt_is_Some_2 (a :: ts) n Hlt) as [s Hs].
      rewrite (windows_unfold n ((a :: ts) ++ [t])).
      rewrite lookup_app_l by assumption. rewrite Hs.
      rewrite (windows_unfold n (a :: ts)), Hs.
      rewrite take_app_le by lia. cbn [app drop].
      change (drop 1 (a :: ts ++ [t])) with (drop 0 (ts ++ [t])).
      change (drop 1 (a :: ts)) with (drop 0 ts). rewrite !drop_0.
      rewrite IH by (simpl in Hlt; lia). f_equal. f_equal. f_equal. f_equal.
      simpl length. replace (S (length ts) - n) with (S (length ts - n)) by (simpl in Hlt; lia).
      reflexivity.
Qed.

(** The loop of [Generate] keeps what the sentence begins with, and every
    window it adds is a window of [W]. *)
Lemma Generate_loop_windows (W : list (string * string)) (n : nat) (c : Chain)
    (l : Z) (sentence : list string) (d : rand) :
  chain_sound W c -> prefixLength c = Z.of_nat n -> (l < 2 ^ 63)%Z ->
  n <= length sentence -> (Z.of_nat (length sentence) < 2 ^ 63)%Z ->
  Forall (fun w => w ∈ W) (windows n sentence) ->
  forall s', Generate_loop c l sentence d = Ok s' ->
    take (length sentence) s' = sentence
    /\ Forall (fun w => w ∈ W) (windows n s').
Proof.
  funelim (Generate_loop c l sentence d);
    intros Hsound Hpl Hl Hlen Hlen63 Hwin s'; clear Heqcall Heq.
  - rewrite Hpl. rewrite slice_last by assumption. cbn [bind].
    set (key := Join (drop (length sentence - n) sentence) delim) in *.
    destruct (decide (len (chain c !!! key) = 0%Z)) as [He|Hne].
    + intros [= <-]. split; [apply firstn_all | assumption].
    + destruct (Intn _ d) as [[i d']| |] eqn:Ei; cbn [bind]; try discriminate.
      destruct (at_index _ i) as [suffixI| |] eqn:Ea; cbn [bind]; try discriminate.
      destruct (Get (tokensIdx c) suffixI) as [suffix| |] eqn:Eg; cbn [bind];
        try discriminate.
      intros Es'. apply at_index_Ok in Ea as [Hin _].
      destruct (Hsound key suffixI Hin) as (s & Eg' & HW).
      rewrite Eg in Eg'. injection Eg' as <-.
      destruct (H (drop (length sentence - n) sentence) Hne (i, d') i d' suffixI
                  suffix W n Hsound Hpl Hl) with (s' := s') as [Htake Hall].
      * rewrite length_app. simpl. lia.
      * rewrite length_app. simpl. unfold len in *. lia.
      * rewrite windows_snoc by assumption. apply Forall_app. split; [assumption|].
        repeat constructor. exact HW.
      * assumption.
      * split; [|assumption]. rewrite length_app in Htake. simpl in Htake.
        apply (f_equal (take (length sentence))) in Htake.
        rewrite take_take, take_app_length in Htake.
        rewrite Nat.min_l in Htake by lia. assumption.
  - intros [= <-]. split; [apply firstn_all | assumption].
Qed.

(** X16 - A generated phrase follows the corpus.  On a chain built (prefix
    length at least 1) with a non-empty starting list, [Generate] returns a
    phrase that begins with the starting prefix of a line of the corpus, and
    every token after it follows, somewhere in the corpus, the [prefixLength]
    tokens before it: every sliding window of the phrase is a sliding window
    of the corpus. *)
Theorem Generate_follows_corpus (pl l : Z) (r : Reader) (c : Chain) (d : rand) :
  (1 <= pl < 2 ^ 63)%Z -> (l < 2 ^ 63)%Z ->
  fits_int32 (NewChain pl) (content r) ->
  Build (NewChain pl) r = Ok c ->
  sp c <> [] ->
  exists ts,
    Generate c l d = Ok (Join ts delim)
    /\ Split (Join ts delim) delim = ts
    /\ Join (take (Z.to_nat pl) ts) delim
       ∈ phrase_starts (Z.to_nat pl) (corpus_lines (content r))
    /\ Forall (fun w => w ∈ corpus_windows (Z.to_nat pl) (content r))
              (windows (Z.to_nat pl) ts).
Proof.
  intros Hpl Hl Hfit HB Hsp.
  assert (Hok : prefixes_ok (Z.to_nat pl) c).
  { apply (Build_prefixes_ok _ (NewChain pl) c r); [lia| |assumption].
    rewrite <- (Z2Nat.id pl) at 2 by lia. apply NewChain_prefixes_ok. }
  set (n := Z.to_nat pl) in *.
  assert (Hpos : positions_ok c) by (apply (Build_positions_ok pl r c); auto; lia).
  pose proof (Build_chain_sound pl r c ltac:(lia) Hfit HB) as Hsound.
  destruct (Build_NewChain_facts pl r c ltac:(lia) Hfit HB)
    as (_ & _ & Hss & Hsl & Esp & Hstarts & _ & _).
  destruct (Generate_spec n c l d) as (ts & EG & ES & Hb & _); auto; try lia.
  exists ts. split; [assumption|]. split; [assumption|].
  (* trace the run that returned [ts] *)
  pose proof Hok as (Hp & Hst & _). pose proof Hpos as (Hspv & _).
  revert EG. unfold Generate.
  destruct (Intn (len (sp c)) d) as [[i d']| |] eqn:Ei; cbn [bind]; try discriminate.
  destruct (at_index (sp c) i) as [spi| |] eqn:Ea; cbn [bind]; try discriminate.
  destruct (Get (startingPrefixIdx c) spi) as [prefix| |] eqn:Eg; cbn [bind];
    try discriminate.
  destruct (len (Split prefix delim) <? prefixLength c)%Z; [discriminate|].
  destruct (Generate_loop c l (Split prefix delim) d') as [s'| |] eqn:El;
    cbn [bind]; try discriminate.
  intros [= EJ].
  apply at_index_Ok in Ea as [Hspi _].
  assert (Hpre : prefix ∈ phrase_starts n (corpus_lines (content r))).
  { rewrite Esp in Hspi. apply list_elem_of_In, in_map_iff in Hspi as (s & Es & Hs).
    apply list_elem_of_In in Hs.
    rewrite <- Es in Eg. rewrite Get_Find_present in Eg; auto.
    injection Eg as <-. assumption. }
  assert (Hlenp : length (Split prefix delim) = n).
  { apply Hst. apply Hstarts. assumption. }
  destruct (Generate_loop_windows (corpus_windows n (content r)) n c l
              (Split prefix delim) d' Hsound Hp Hl) with (s' := s')
    as [Htake Hall]; try lia; auto.
  { rewrite windows_short by lia. constructor. }
  assert (Ets : s' = ts).
  { assert (Hs'free : Forall (fun t => contains t delim = false) s').
    { destruct (Generate_loop_spec n c l (Split prefix delim) d' Hok Hpos)
        as (s2 & E2 & _ & _ & Hfree & _); try lia; [apply Split_no_sep|].
      rewrite El in E2. injection E2 as <-. assumption. }
    rewrite <- ES, <- EJ. symmetry. apply Split_Join; [|assumption].
    intros ->. rewrite take_nil in Htake.
    pose proof (Split_not_nil prefix delim). congruence. }
  subst s'. rewrite Hlenp in Htake. rewrite Htake, Join_Split.
  split; assumption.
Qed.

Lemma Generate_follows_corpus_witness :
  (1 <= 2 < 2 ^ 63)%Z /\ (20 < 2 ^ 63)%Z
  /\ fits_int32 (NewChain 2) (content (Buffer test_data))
  /\ exists c, Build (NewChain 2) (Buffer test_data) = Ok c
       /\ sp c <> []
       /\ exists ts, Generate c 20 (fun k => k * 7 + 3) = Ok (Join ts delim)
            /\ Forall (fun w => w ∈ corpus_windows (Z.to_nat 2) (content (Buffer test_data)))
                      (windows (Z.to_nat 2) ts).
Proof.
  assert (Hpl : (1 <= 2 < 2 ^ 63)%Z) by lia.
  assert (Hl : (20 < 2 ^ 63)%Z) by lia.
  assert (Hf : fits_int32 (NewChain 2) (content (Buffer test_data))).
  { split; apply Z.leb_le; vm_compute; reflexivity. }
  split; [exact Hpl|]. split; [exact Hl|]. split; [exact Hf|].
  destruct (Build (NewChain 2) (Buffer test_data)) as [c| |] eqn:E;
    [|vm_compute in E; discriminate E|vm_compute in E; discriminate E].
  assert (Hsp : sp c <> []).
  { vm_compute in E. injection E as <-. discriminate. }
  exists c. split; [reflexivity|]. split; [exact Hsp|].
  destruct (Generate_follows_corpus 2 20 (Buffer test_data) c (fun k => k * 7 + 3)
              Hpl Hl Hf E Hsp) as (ts & HG & _ & _ & Hw).
  exists ts. split; assumption.
Defined.

(** X17 - A maximum length that is not above the prefix length (0 and
    negative ones too) gives a starting prefix as it is: on a chain built
    with a non-empty starting list, [Generate] then returns the starting
    prefix of a line of the corpus, [prefixLength] tokens. *)
Theorem Generate_short_returns_prefix (pl l : Z) (r : Reader) (c : Chain) (d : rand) :
  (1 <= pl < 2 ^ 63)%Z -> (l <= pl)%Z ->
  fits_int32 (NewChain pl) (content r) ->
  Build (NewChain pl) r = Ok c ->
  sp c <> [] ->
  exists prefix,
    Generate c l d = Ok prefix
    /\ prefix ∈ phrase_starts (Z.to_nat pl) (corpus_lines (content r))
    /\ token_count prefix = pl.
Proof.
  intros Hpl Hl Hfit HB Hsp.
  assert (Hok : prefixes_ok (Z.to_nat pl) c).
  { apply (Build_prefixes_ok _ (NewChain pl) c r); [lia| |assumption].
    rewrite <- (Z2Nat.id pl) at 2 by lia. apply NewChain_prefixes_ok. }
  assert (Hpos : positions_ok c) by (apply (Build_positions_ok pl r c); auto; lia).
  destruct (Build_NewChain_facts pl r c ltac:(lia) Hfit HB)
    as (_ & _ & Hss & Hsl & Esp & Hstarts & _ & _).
  pose proof Hok as (Hp & Hst & _). pose proof Hpos as (Hspv & _).
  unfold Generate.
  destruct (Intn_valid (len (sp c)) d) as (i & d' & Ei & Hi).
  { unfold len. destruct (sp c); [congruence | simpl; lia]. }
  rewrite Ei. cbn [bind].
  destruct (at_index_valid (sp c) i Hi) as (spi & Ea & Hin). rewrite Ea. cbn [bind].
  rewrite Esp in Hin. apply list_elem_of_In, in_map_iff in Hin as (s & <- & Hs).
  apply list_elem_of_In in Hs.
  rewrite Get_Find_present by auto. cbn [bind].
  pose proof (Hst s (Hstarts s Hs)) as Hlen.
  unfold len at 1. rewrite Hlen, Hp.
  replace (Z.of_nat (Z.to_nat pl) <? Z.of_nat (Z.to_nat pl))%Z with false
    by (symmetry; apply Z.ltb_irrefl).
  assert (EL : Generate_loop c l (Split s delim) d' = Ok (Split s delim)).
  { clear - Hlen Hl Hpl. funelim (Generate_loop c l (Split s delim) d'); [|reflexivity].
    unfold len in *. lia. }
  rewrite EL. cbn [bind]. rewrite Join_Split.
  exists s. split; [reflexivity|]. split; [assumption|].
  unfold token_count, len. rewrite Hlen. lia.
Qed.

Lemma Generate_short_returns_prefix_witness :
  (1 <= 2 < 2 ^ 63)%Z /\ (0 <= 2)%Z
  /\ fits_int32 (NewChain 2) (content (Buffer test_data))
  /\ exists c, Build (NewChain 2) (Buffer test_data) = Ok c
       /\ sp c <> []
       /\ exists prefix, Generate c 0 (fun k => k) = Ok prefix
            /\ token_count prefix = 2%Z.
Proof.
  assert (Hpl : (1 <= 2 < 2 ^ 63)%Z) by lia.
  assert (Hl : (0 <= 2)%Z) by lia.
  assert (Hf : fits_int32 (NewChain 2) (content (Buffer test_data))).
  { split; apply Z.leb_le; vm_compute; reflexivity. }
  split; [exact Hpl|]. split; [exact Hl|]. split; [exact Hf|].
  destruct (Build (NewChain 2) (Buffer test_data)) as [c| |] eqn:E;
    [|vm_compute in E; discriminate E|vm_compute in E; discriminate E].
  assert (Hsp : sp c <> []).
  { vm_compute in E. injection E as <-. discriminate. }
  exists c. split; [reflexivity|]. split; [exact Hsp|].
  destruct (Generate_short_returns_prefix 2 0 (Buffer test_data) c (fun k => k)
              Hpl Hl Hf E Hsp) as (prefix & HG & _ & Hc).
  exists prefix. split; assumption.
Defined.

(** * Further properties of the tokenizer *)

(** What is left after trimming is empty or begins with a byte that is no
    white space. *)
Lemma trim_spaces_head (fwd : bool) (n : nat) (s : string) :
  String.length s <= n ->
  trim_spaces fwd s = EmptyString
  \/ exists a s', trim_spaces fwd s = String a s' /\ asciiSpace a = false.
Proof.
  revert s. induction n as [|n IH]; intros s Hlen.
  - destruct s; [|simpl in Hlen; lia]. left. reflexivity.
  - destruct s as [|a [|b [|c s3]]]; simpl in Hlen; simpl.
    + left. reflexivity.
    + destruct (asciiSpace a) eqn:Ea; [left; reflexivity | right; eauto].
    + destruct (asciiSpace a) eqn:Ea.
      * apply (IH (String b EmptyString)). simpl. lia.
      * destruct (if fwd then space2 a b else space2 b a);
          [left; reflexivity | right; eauto].
    + destruct (asciiSpace a) eqn:Ea.
      * apply (IH (String b (String c s3))). simpl. lia.
      * destruct (if fwd then space2 a b else space2 b a).
        -- apply (IH (String c s3)). simpl. lia.
        -- destruct (if fwd then space3 a b c else space3 c b a);
             [apply (IH s3); lia | right; eauto].
Qed.

(** Trimming only removes bytes at the beginning. *)
Lemma trim_spaces_suffix (fwd : bool) (n : nat) (s : string) :
  String.length s <= n -> exists pre, s = pre +:+ trim_spaces fwd s.
Proof.
  revert s. induction n as [|n IH]; intros s Hlen.
  - destruct s; [|simpl in Hlen; lia]. exists EmptyString. reflexivity.
  - assert (Hkeep : forall t : string, exists pre, t = pre +:+ t)
      by (intros t; exists EmptyString; reflexivity).
    assert (Hdrop : forall (p t : string), String.length t <= n ->
              exists pre, p +:+ t = pre +:+ trim_spaces fwd t).
    { intros p t Ht. destruct (IH t Ht) as [pre Hpre].
      exists (p +:+ pre). rewrite append_assoc. now rewrite <- Hpre. }
    destruct s as [|a [|b [|c s3]]]; simpl in Hlen; simpl.
    + exists EmptyString. reflexivity.
    + destruct (asciiSpace a); [exists (String a EmptyString); reflexivity | apply Hkeep].
    + destruct (asciiSpace a).
      * apply (Hdrop (String a EmptyString) (String b EmptyString)). simpl. lia.
      * destruct (if fwd then space2 a b else space2 b a);
          [exists (String a (String b EmptyString)); reflexivity | apply Hkeep].
    + destruct (asciiSpace a).
      * apply (Hdrop (String a EmptyString) (String b (String c s3))). simpl. lia.
      * destruct (if fwd then space2 a b else space2 b a).
        -- apply (Hdrop (String a (String b EmptyString)) (String c s3)). simpl. lia.
        -- destruct (if fwd then space3 a b c else space3 c b a);
             [apply (Hdrop (String a (String b (String c EmptyString))) s3); lia
             | apply Hkeep].
Qed.

Lemma not_space_not_delim (a : ascii) :
  asciiSpace a = false -> Ascii.eqb a delim = false.
Proof.
  intros H. destruct (Ascii.eqb_spec a delim) as [->|]; [|reflexivity].
  vm_compute in H. discriminate.
Qed.

Lemma Split_last (s : string) (b d : ascii) :
  Ascii.eqb b d = false ->
  exists ts t, Split (s +:+ String b EmptyString) d = ts ++ [t +:+ String b EmptyString].
Proof.
  intros Hb. induction s as [|c s (ts & t & IH)]; simpl.
  - rewrite Hb. exists [], EmptyString. reflexivity.
  - rewrite IH. destruct (Ascii.eqb c d).
    + exists (EmptyString :: ts), t. reflexivity.
    + destruct ts as [|u ts]; simpl.
      * exists [], (String c t). reflexivity.
      * exists (String c u :: ts), t. reflexivity.
Qed.

(** X18 - White space at the ends of a line gives no tokens: the tokens
    that [processStream] passes on are the one empty token of a blank line,
    or they begin and end with a token that is not empty (empty tokens only
    come from two delimiters in a row inside the line). *)
Theorem tokenize_ends_not_empty (line : string) :
  tokenize line = [EmptyString]
  \/ (head (tokenize line) <> Some EmptyString
      /\ last (tokenize line) <> Some EmptyString).
Proof.
  unfold tokenize, TrimSpace, TrimRight.
  set (t0 := TrimLeft line).
  destruct (trim_spaces_head false _ (String.rev t0) (le_n _))
    as [Ev|(b & v' & Ev & Hb)]; rewrite Ev.
  - left. reflexivity.
  - right.
    change (String.rev (String b v')) with (String.rev_app v' (String b EmptyString)).
    rewrite rev_app_eq.
    destruct (trim_spaces_suffix false _ (String.rev t0) (le_n _)) as [pre Hpre].
    rewrite Ev in Hpre. apply (f_equal String.rev) in Hpre.
    rewrite rev_involutive, rev_append in Hpre.
    change (String.rev (String b v')) with (String.rev_app v' (String b EmptyString))
      in Hpre.
    rewrite rev_app_eq in Hpre.
    set (w := String.rev v' +:+ String b EmptyString) in *.
    split.
    + assert (Hw : exists a w', w = String a w' /\ asciiSpace a = false).
      { destruct (trim_spaces_head true _ line (le_n _)) as [E0|(a & t' & E0 & Ha)];
          fold (TrimLeft line) in E0; fold t0 in E0; rewrite E0 in Hpre.
        - unfold w in Hpre. destruct (String.rev v'); discriminate.
        - destruct w as [|a' w'] eqn:Ew.
          + unfold w in Ew. destruct (String.rev v'); discriminate.
          + cbn in Hpre. injection Hpre as <- _. eauto. }
      destruct Hw as (a & w' & -> & Ha). rewrite Split_cons.
      rewrite (not_space_not_delim a Ha).
      destruct (Split w' delim); simpl; intros [= E].
    + unfold w.
      destruct (Split_last (String.rev v') b delim (not_space_not_delim b Hb))
        as (ts & t & ->).
      rewrite last_snoc. intros [= E]. destruct t; discriminate.
Qed.

(** * The insertion point *)

Lemma filter_all {A : Type} (P : A -> Prop) `{forall x, Decision (P x)} (l : list A) :
  Forall P l -> filter P l = l.
Proof.
  induction 1 as [|x l Hx Hl IH]; [reflexivity|].
  rewrite filter_cons_True by assumption. now rewrite IH.
Qed.

Lemma filter_none {A : Type} (P : A -> Prop) `{forall x, Decision (P x)} (l : list A) :
  Forall (fun x => ~ P x) l -> filter P l = [].
Proof.
  induction 1 as [|x l Hx Hl IH]; [reflexivity|].
  now rewrite filter_cons_False by assumption.
Qed.

(** X19 - On a sorted slice the binary search of [Add] and [Find] returns
    the insertion point of the token: the number of the tokens that are
    smaller. *)
Theorem SearchStrings_insertion_point (a : list string) (x : string) :
  sorted a ->
  SearchStrings a x = length (filter (fun y => String.ltb y x = true) a).
Proof.
  intros Hs. destruct (SearchStrings_spec a x Hs) as (Hr & Hlo & Hhi).
  set (r := SearchStrings a x) in *.
  rewrite <- (take_drop r a) at 1. rewrite filter_app.
  rewrite filter_all, filter_none.
  - rewrite app_nil_r, length_take. lia.
  - apply Forall_forall. intros y Hy. apply list_elem_of_lookup in Hy as [k Hk].
    rewrite lookup_drop in Hk. apply (Hhi _ _ Hk). lia.
  - apply Forall_forall. intros y Hy. apply list_elem_of_lookup in Hy as [k Hk].
    apply lookup_take_Some in Hk as [Hk Hkr]. exact (Hlo _ _ Hk Hkr).
Qed.

Lemma SearchStrings_insertion_point_witness :
  sorted ["abc"; "boo"; "foo"; "hello"]
  /\ SearchStrings ["abc"; "boo"; "foo"; "hello"] "cat"
     = length (filter (fun y => String.ltb y "cat" = true)
                      ["abc"; "boo"; "foo"; "hello"]).
Proof.
  assert (Hs : sorted ["abc"; "boo"; "foo"; "hello"]) by (repeat constructor).
  split; [exact Hs|].
  exact (SearchStrings_insertion_point ["abc"; "boo"; "foo"; "hello"] "cat" Hs).
Defined.

(** * Building the same corpus again *)

Lemma Adds_present (idx : index) (ts : list string) :
  sorted (tokens idx) -> (forall t, t ∈ ts -> t ∈ tokens idx) -> Adds idx ts = idx.
Proof.
  intros Hs. induction ts as [|t ts IH]; intros Hin; [reflexivity|].
  change (Adds idx (t :: ts)) with (Adds (Add idx t) ts).
  rewrite Add_present; [|assumption|apply Hin, list_elem_of_here].
  apply IH. intros u Hu. apply Hin. now apply list_elem_of_further.
Qed.

(** X20 - Building the same corpus a second time on the chain it made
    leaves the two indexes as they are, so the positions stay valid, and
    doubles the lists: the starting list and every entry of the chain map
    are followed by a copy of themselves. *)
Theorem Build_twice_doubles (pl : Z) (r : Reader) (c1 c2 : Chain) :
  (0 <= pl < 2 ^ 63)%Z ->
  fits_int32 (NewChain pl) (content r) ->
  Build (NewChain pl) r = Ok c1 ->
  fits_int32 c1 (content r) ->
  Build c1 r = Ok c2 ->
  tokensIdx c2 = tokensIdx c1
  /\ startingPrefixIdx c2 = startingPrefixIdx c1
  /\ sp c2 = sp c1 ++ sp c1
  /\ (forall p, chain c2 !!! p = (chain c1 !!! p) ++ (chain c1 !!! p)).
Proof.
  intros Hpl Hfit HB1 Hfit1 HB2.
  destruct (Build_NewChain_facts pl r c1 Hpl Hfit HB1)
    as (Hs & _ & Hss & _ & Esp & _ & Hch & _).
  pose proof (Build_indexes _ _ _ HB1) as [Ei Es]. cbn [NewChain tokensIdx startingPrefixIdx prefixLength] in Ei, Es.
  pose proof (Build_extends _ _ _ HB1) as (Hp1 & _). cbn [NewChain prefixLength] in Hp1.
  destruct (failure r) as [e|] eqn:Fr.
  { rewrite (Build_failure _ _ _ Fr) in HB2. discriminate. }
  rewrite (Build_spec c1 r (Z.to_nat pl)) in HB2; auto; try lia.
  injection HB2 as <-. unfold Build_result.
  cbn [chain tokensIdx sp startingPrefixIdx].
  assert (E1 : Adds (tokensIdx c1) (concat (corpus_lines (content r))) = tokensIdx c1).
  { apply Adds_present; [assumption|]. intros t Ht. rewrite Ei.
    apply Adds_elem_of. left. exact Ht. }
  assert (E2 : Adds (startingPrefixIdx c1)
                 (starting_prefixes (Z.to_nat pl) (corpus_lines (content r)))
               = startingPrefixIdx c1).
  { apply Adds_present; [assumption|]. intros t Ht. rewrite Es.
    apply Adds_elem_of. left. exact Ht. }
  rewrite E1, E2. split; [reflexivity|]. split; [reflexivity|].
  split; [now rewrite <- Esp|].
  intros p. rewrite fold_record_lookup. fold (corpus_windows (Z.to_nat pl) (content r)).
  now rewrite <- Hch.
Qed.

Lemma Build_twice_doubles_witness :
  (0 <= 2 < 2 ^ 63)%Z
  /\ fits_int32 (NewChain 2) (content (Buffer test_data))
  /\ exists c1 c2,
       Build (NewChain 2) (Buffer test_data) = Ok c1
       /\ fits_int32 c1 (content (Buffer test_data))
       /\ Build c1 (Buffer test_data) = Ok c2
       /\ tokensIdx c2 = tokensIdx c1
       /\ sp c2 = sp c1 ++ sp c1.
Proof.
  assert (Hr : (0 <= 2 < 2 ^ 63)%Z) by lia.
  assert (Hf : fits_int32 (NewChain 2) (content (Buffer test_data))).
  { split; apply Z.leb_le; vm_compute; reflexivity. }
  split; [exact Hr|]. split; [exact Hf|].
  destruct (Build (NewChain 2) (Buffer test_data)) as [c1| |] eqn:E1;
    [|vm_compute in E1; discriminate E1|vm_compute in E1; discriminate E1].
  assert (Hf1 : fits_int32 c1 (content (Buffer test_data))).
  { vm_compute in E1. injection E1 as <-.
    split; apply Z.leb_le; vm_compute; reflexivity. }
  destruct (Build c1 (Buffer test_data)) as [c2| |] eqn:E2.
  2:{ exfalso. vm_compute in E1. injection E1 as <-. vm_compute in E2. discriminate E2. }
  2:{ exfalso. vm_compute in E1. injection E1 as <-. vm_compute in E2. discriminate E2. }
  exists c1, c2.
  destruct (Build_twice_doubles 2 (Buffer test_data) c1 c2 Hr Hf E1 Hf1 E2)
    as (H1 & _ & H3 & _).
  split; [reflexivity|]. split; [exact Hf1|]. split; [exact E2|].
  split; [exact H1 | exact H3].
Defined.

(** * index.String *)

Lemma fold_String (ts : list string) (acc : string) :
  fold_left (fun out t => out +:+ String newline t) ts acc
  +:+ String newline EmptyString
  = acc +:+ String newline (Join (ts ++ [EmptyString]) newline).
Proof.
  revert acc. induction ts as [|t ts IH]; intros acc; [reflexivity|].
  cbn [fold_left app]. rewrite IH, append_assoc.
  rewrite (Join_cons t (ts ++ [EmptyString])) by (destruct ts; discriminate).
  reflexivity.
Qed.

(** X21 - [String] writes every token on a line of its own, after an empty
    first line: for tokens without line feed, the lines of the text are the
    empty line, the tokens in the order of the index, and the empty line
    that follows the last line feed. *)
Theorem index_String_lines (idx : index) :
  Forall (fun t => contains t newline = false) (tokens idx) ->
  lines (index_String idx) = EmptyString :: tokens idx ++ [EmptyString].
Proof.
  intros Hall. unfold lines, index_String. fold newline.
  rewrite fold_String.
  change (EmptyString +:+ String newline (Join (tokens idx ++ [EmptyString]) newline))
    with (String newline (Join (tokens idx ++ [EmptyString]) newline)).
  rewrite Split_cons, Ascii.eqb_refl. f_equal.
  apply Split_Join; [destruct (tokens idx); discriminate|].
  apply Forall_app. split; [assumption|]. repeat constructor.
Qed.

Lemma index_String_lines_witness :
  Forall (fun t => contains t newline = false) ["abc"; "foo"]
  /\ lines (index_String (mk_index ["abc"; "foo"])) = ["";  "abc"; "foo"; ""].
Proof.
  assert (H : Forall (fun t => contains t newline = false) ["abc"; "foo"])
    by (repeat constructor).
  split; [exact H|].
  exact (index_String_lines (mk_index ["abc"; "foo"]) H).
Defined.
